(** * x8h: the bounded story tracker and its ingestion / reconciliation loops

    A shallow embedding of [main.go].  The tracker ([limitQueue]) is a
    capacity-bounded ordered map fed by [storyLister] and swept by
    [storyRemover]; both publish [change] events on [changeCh].

    Conventions of the embedding:
    - Go [int], [int64] and [unixTime] values are [Z];
    - Go strings are [string] (sequences of bytes);
    - [map[int]*item] is a [gmap Z item], [[]int] is a [list Z];
    - a Go [(value, error)] pair is a [result];
    - what a function does to the outside world (a send on [changeCh], a send
      on [incomingItems], a call of a tracker method, a line written by
      [log.Println]) is recorded, in program order, in a list of [action]s. *)

From Stdlib Require Import Ascii String.
From stdpp Require Import gmap list strings pretty.

Local Open Scope Z_scope.

(** ** Constants of [main.go] *)

Definition hnPostLinkPrefix : string := "https://news.ycombinator.com/item?id=".
Definition frontPageNumArticles : Z := 30.
Definition eightHrs : Z := 8 * 60 * 60.
Definition humanTrackingLimit : Z := 300.
Definition itemFromFile : string := "file".
Definition itemFromHN : string := "hn".

Inductive changeAction := changeAdd | changeRemove.

Global Instance changeAction_eq_dec : EqDecision changeAction.
Proof. solve_decision. Defined.

Definition changeAction_string (a : changeAction) : string :=
  match a with changeAdd => "added" | changeRemove => "removed" end.

(** A Go error value; only its presence matters here, the text is kept for
    the log. *)
Definition error := string.

Inductive result (A : Type) :=
| Ok (a : A)
| Err (e : error).
Arguments Ok {A} a.
Arguments Err {A} e.

(** ** The item and the tracker *)

(** Modelled from the spec: the declaration of the struct [item] is not in
    [main.go].  The record has the fields [main.go] reads or writes ([ID],
    [URL], [Added], [Domain], [From], [DiscussLink]), with the types the uses
    in [main.go] force: [ID] is compared with an [int], [Added] is converted
    from [unixTime], the others are compared with or assigned strings. *)
Record item := mkItem {
  ID : Z;
  URL : string;
  Added : Z;
  Domain : string;
  From : string;
  DiscussLink : string
}.

Global Instance item_eq_dec : EqDecision item.
Proof. solve_decision. Defined.

Definition set_Added (v : Z) (it : item) : item :=
  mkItem (ID it) (URL it) v (Domain it) (From it) (DiscussLink it).
Definition set_Domain (v : string) (it : item) : item :=
  mkItem (ID it) (URL it) (Added it) v (From it) (DiscussLink it).
Definition set_From (v : string) (it : item) : item :=
  mkItem (ID it) (URL it) (Added it) (Domain it) v (DiscussLink it).
Definition set_DiscussLink (v : string) (it : item) : item :=
  mkItem (ID it) (URL it) (Added it) (Domain it) (From it) v.

Record change := mkChange {
  Action : changeAction;
  Item : item
}.

Global Instance change_eq_dec : EqDecision change.
Proof. solve_decision. Defined.

(** The three fields are the ones the composite literal in [main] sets. *)
Record limitQueue := mkLimitQueue {
  limit : Z;
  keys : list Z;
  store : gmap Z item
}.

(** [queue := &limitQueue{limit: humanTrackingLimit, keys: []int{},
    store: make(map[int]*item)}] *)
Definition queue : limitQueue := mkLimitQueue humanTrackingLimit [] ∅.

Definition newQueue (c : Z) : limitQueue := mkLimitQueue c [] ∅.

Module LimitQueue.

(** Modelled from the spec: the method [add] of [limitQueue] is not in
    [main.go].  Spec: if [item.ID] is already present, overwrite the item in
    place (keys order unchanged) and return nothing removed; else append the
    ID, insert into [store], and if the size now exceeds [C], remove the
    oldest key and item (index 0) and return it as the evicted item. *)
Definition add (it : item) (lq : limitQueue) : option item * limitQueue :=
  match store lq !! ID it with
  | Some _ =>
      (None, mkLimitQueue (limit lq) (keys lq) (<[ID it := it]> (store lq)))
  | None =>
      let keys' := keys lq ++ [ID it] in
      let store' := <[ID it := it]> (store lq) in
      if bool_decide (limit lq < Z.of_nat (length keys')) then
        match keys' with
        | oldest :: rest =>
            (store' !! oldest,
             mkLimitQueue (limit lq) rest (delete oldest store'))
        | [] => (None, mkLimitQueue (limit lq) keys' store')
        end
      else (None, mkLimitQueue (limit lq) keys' store')
  end.

(** Modelled from the spec: the method [remove] of [limitQueue] is not in
    [main.go].  Spec: deletes the key and its store entry unconditionally;
    no-op if absent. *)
Definition remove (id : Z) (lq : limitQueue) : limitQueue :=
  mkLimitQueue (limit lq)
               (filter (λ k, k ≠ id) (keys lq))
               (delete id (store lq)).

(** The tracker after a sequence of [add] calls, oldest call first. *)
Definition adds (its : list item) (lq : limitQueue) : limitQueue :=
  foldl (λ q it, (add it q).2) lq its.

(** What the spec calls the tracker invariant. *)
Record wf (lq : limitQueue) : Prop := mkWf {
  wf_nodup : NoDup (keys lq);
  wf_dom : ∀ k, k ∈ keys lq ↔ is_Some (store lq !! k);
  wf_bound : Z.of_nat (length (keys lq)) ≤ limit lq
}.

End LimitQueue.

(** ** The parts of Go's [strings] package that [main.go] and [net/url] use *)

Module strings.

Definition byte_le (a b : ascii) : bool := (N_of_ascii a <=? N_of_ascii b)%N.
Definition byte_eq (a b : ascii) : bool := bool_decide (a = b).
Definition between (lo hi c : ascii) : bool := byte_le lo c && byte_le c hi.

(** [strings.Cut(s, sep)] for a one-byte [sep]: the text before and after
    the first [sep], and whether there is one. *)
Fixpoint Cut (sep : ascii) (s : string) : string * string * bool :=
  match s with
  | EmptyString => (EmptyString, EmptyString, false)
  | String c rest =>
      if byte_eq c sep then (EmptyString, rest, true)
      else let '(b, a, found) := Cut sep rest in (String c b, a, found)
  end.

(** The split of [s] around its last [sep] ([strings.LastIndex] followed by
    the two slices [s[:i]] and [s[i+1:]]); [None] when the index is -1. *)
Fixpoint CutLast (sep : ascii) (s : string) : option (string * string) :=
  match s with
  | EmptyString => None
  | String c rest =>
      match CutLast sep rest with
      | Some (b, a) => Some (String c b, a)
      | None => if byte_eq c sep then Some (EmptyString, rest) else None
      end
  end.

Fixpoint ContainsByte (sep : ascii) (s : string) : bool :=
  match s with
  | EmptyString => false
  | String c rest => byte_eq c sep || ContainsByte sep rest
  end.

Fixpoint CountByte (sep : ascii) (s : string) : nat :=
  match s with
  | EmptyString => O
  | String c rest => ((if byte_eq c sep then 1 else 0) + CountByte sep rest)%nat
  end.

Definition HasPrefix (s p : string) : bool := String.prefix p s.

Fixpoint HasSuffixByte (c : ascii) (s : string) : bool :=
  match s with
  | EmptyString => false
  | String a EmptyString => byte_eq a c
  | String _ rest => HasSuffixByte c rest
  end.

(** [s[:len(s)-1]] *)
Fixpoint dropLast (s : string) : string :=
  match s with
  | EmptyString => EmptyString
  | String _ EmptyString => EmptyString
  | String a rest => String a (dropLast rest)
  end.

(** [strings.Index(s, sub)] as the split [(s[:i], s[i:])]. *)
Fixpoint SplitAtIndex (sub s : string) : option (string * string) :=
  if String.prefix sub s then Some (EmptyString, s)
  else match s with
       | EmptyString => None
       | String c rest =>
           match SplitAtIndex sub rest with
           | Some (b, a) => Some (String c b, a)
           | None => None
           end
       end.

(** [strings.Split(s, sep)] for a one-byte [sep]; never the empty list. *)
Fixpoint Split (sep : ascii) (s : string) : list string :=
  match s with
  | EmptyString => [EmptyString]
  | String c rest =>
      if byte_eq c sep then EmptyString :: Split sep rest
      else match Split sep rest with
           | p :: ps => String c p :: ps
           | [] => [String c EmptyString]
           end
  end.

Fixpoint dropBytes (n : nat) (s : string) : string :=
  match n, s with
  | O, _ => s
  | S n', String _ rest => dropBytes n' rest
  | S _, EmptyString => EmptyString
  end.

(** The first [old] of the argument list that is a prefix of [s]. *)
Fixpoint firstMatch (pairs : list (string * string)) (s : string)
  : option (string * string) :=
  match pairs with
  | [] => None
  | (old, new) :: ps =>
      if String.prefix old s then Some (old, new) else firstMatch ps s
  end.

(** [strings.NewReplacer(pairs...).Replace(s)] for non-empty [old] strings:
    matches are taken left to right without overlap, and at one position
    the [old] strings are compared in argument order.  [fuel] bounds the
    number of steps; [length s] steps always suffice. *)
Fixpoint replaceFrom (fuel : nat) (pairs : list (string * string)) (s : string)
  : string :=
  match fuel with
  | O => s
  | S fuel' =>
      match s with
      | EmptyString => EmptyString
      | String c rest =>
          match firstMatch pairs s with
          | Some (old, new) =>
              String.append new
                (replaceFrom fuel' pairs (dropBytes (String.length old) s))
          | None => String c (replaceFrom fuel' pairs rest)
          end
      end
  end.

Definition Replace (pairs : list (string * string)) (s : string) : string :=
  replaceFrom (String.length s) pairs s.

End strings.

Global Instance result_ret : MRet result := λ A a, Ok a.
Global Instance result_bind : MBind result := λ A B k r,
  match r with
  | Ok a => k a
  | Err e => Err e
  end.

(** ** Go's [net/url]: [Parse] and [Hostname]

    [urlToDomain] calls [url.Parse] and [URL.Hostname] of the Go standard
    library.  This is their algorithm ([Parse], [parse] with
    [viaRequest = false], [getScheme], [parseAuthority], [parseHost],
    [unescape], [shouldEscape], [validOptionalPort], [validUserinfo] and
    [splitHostPort] as in the Go 1.20 sources), restricted to what decides the
    result of [Hostname] and whether [Parse] fails: the [User] field and the
    raw forms of path and fragment are not kept, and the text of an error is
    the inner message without the [parse] prefix. *)

Module url.

Import strings.

Record URL := mkURL {
  Scheme : string;
  Opaque : string;
  Host : string;
  Path : string;
  RawQuery : string;
  Fragment : string
}.

Inductive encoding :=
| encodePath | encodeUserPassword | encodeHost | encodeZone | encodeFragment.

Global Instance encoding_eq_dec : EqDecision encoding.
Proof. solve_decision. Defined.

Definition isLetter (c : ascii) : bool :=
  between "a" "z" c || between "A" "Z" c.
Definition isDigit (c : ascii) : bool := between "0" "9" c.
Definition oneOf (cs : string) (c : ascii) : bool := ContainsByte c cs.
Definition dquote : ascii := ascii_of_nat 34.

Definition ishex (c : ascii) : bool :=
  isDigit c || between "a" "f" c || between "A" "F" c.

Definition unhex (c : ascii) : N :=
  if isDigit c then N_of_ascii c - 48
  else if between "a" "f" c then N_of_ascii c - 97 + 10
  else if between "A" "F" c then N_of_ascii c - 65 + 10
  else 0.

Definition unhex2 (a b : ascii) : ascii := ascii_of_N (16 * unhex a + unhex b).

(** [shouldEscape(c, encodeHost)] *)
Definition shouldEscapeHost (c : ascii) : bool :=
  if isLetter c || isDigit c then false
  else if oneOf "!$&'()*+,;=:[]<>" c || byte_eq c dquote then false
  else if oneOf "-_.~" c then false
  else true.

Definition stringContainsCTLByte (s : string) : bool :=
  existsb (λ b, (N_of_ascii b <? 32)%N || (N_of_ascii b =? 127)%N)
          (list_ascii_of_string s).

Definition toLowerByte (c : ascii) : ascii :=
  if between "A" "Z" c then ascii_of_N (N_of_ascii c + 32) else c.

Definition ToLower (s : string) : string :=
  string_of_list_ascii (map toLowerByte (list_ascii_of_string s)).

(** First loop of [unescape]: are the escapes well formed for [mode]? *)
Fixpoint unescapeCheck (mode : encoding) (s : string) : option error :=
  match s with
  | EmptyString => None
  | String c rest =>
      if byte_eq c "%" then
        match rest with
        | String a (String b rest') =>
            if negb (ishex a && ishex b) then Some "invalid URL escape"
            else if bool_decide (mode = encodeHost) && (unhex a <? 8)%N
                    && negb (byte_eq a "2" && byte_eq b "5")
            then Some "invalid URL escape"
            else if bool_decide (mode = encodeZone)
                    && negb (byte_eq a "2" && byte_eq b "5")
                    && negb (byte_eq (unhex2 a b) " ")
                    && shouldEscapeHost (unhex2 a b)
            then Some "invalid URL escape"
            else unescapeCheck mode rest'
        | _ => Some "invalid URL escape"
        end
      else if (bool_decide (mode = encodeHost) || bool_decide (mode = encodeZone))
              && (N_of_ascii c <? 128)%N && shouldEscapeHost c
      then Some "invalid character in host name"
      else unescapeCheck mode rest
  end.

(** Second loop of [unescape], for the modes above ([+] stays [+]). *)
Fixpoint unescapeDecode (s : string) : string :=
  match s with
  | EmptyString => EmptyString
  | String c rest =>
      if byte_eq c "%" then
        match rest with
        | String a (String b rest') => String (unhex2 a b) (unescapeDecode rest')
        | _ => String c (unescapeDecode rest)
        end
      else String c (unescapeDecode rest)
  end.

Definition unescape (s : string) (mode : encoding) : result string :=
  match unescapeCheck mode s with
  | Some e => Err e
  | None => Ok (unescapeDecode s)
  end.

Inductive schemeScan :=
| NoScheme
| MissingScheme
| FoundScheme (scheme rest : string).

(** The loop of [getScheme]; [first] says that the index is 0. *)
Fixpoint scanScheme (first : bool) (s : string) : schemeScan :=
  match s with
  | EmptyString => NoScheme
  | String c rest =>
      let continue :=
        match scanScheme false rest with
        | FoundScheme sc r => FoundScheme (String c sc) r
        | other => other
        end in
      if isLetter c then continue
      else if isDigit c || oneOf "+-." c then
        if first then NoScheme else continue
      else if byte_eq c ":" then
        if first then MissingScheme else FoundScheme EmptyString rest
      else NoScheme
  end.

Definition getScheme (rawURL : string) : result (string * string) :=
  match scanScheme true rawURL with
  | NoScheme => Ok (EmptyString, rawURL)
  | MissingScheme => Err "missing protocol scheme"
  | FoundScheme sc rest => Ok (sc, rest)
  end.

Definition validOptionalPort (port : string) : bool :=
  match port with
  | EmptyString => true
  | String c digits =>
      byte_eq c ":" && forallb isDigit (list_ascii_of_string digits)
  end.

Definition validUserinfo (s : string) : bool :=
  forallb (λ r, isLetter r || isDigit r || oneOf "-._:~!$&'()*+,;=%@" r)
          (list_ascii_of_string s).

Definition parseHost (host : string) : result string :=
  if HasPrefix host "[" then
    match CutLast "]" host with
    | None => Err "missing ']' in host"
    | Some (upto, colonPort) =>
        if negb (validOptionalPort colonPort) then Err "invalid port after host"
        else
          match SplitAtIndex "%25" upto with
          | Some (before, zone) =>
              host1 ← unescape before encodeHost;
              host2 ← unescape zone encodeZone;
              host3 ← unescape (String "]" colonPort) encodeHost;
              Ok (String.append host1 (String.append host2 host3))
          | None => unescape host encodeHost
          end
    end
  else
    match CutLast ":" host with
    | Some (_, port) =>
        if negb (validOptionalPort (String ":" port))
        then Err "invalid port after host"
        else unescape host encodeHost
    | None => unescape host encodeHost
    end.

(** [parseAuthority], returning the host only. *)
Definition parseAuthority (authority : string) : result string :=
  match CutLast "@" authority with
  | None => parseHost authority
  | Some (userinfo, hostport) =>
      host ← parseHost hostport;
      if negb (validUserinfo userinfo) then Err "net/url: invalid userinfo"
      else
        let '(username, password, _) := Cut ":" userinfo in
        _ ← unescape username encodeUserPassword;
        _ ← unescape password encodeUserPassword;
        Ok host
  end.

Definition parse (rawURL : string) : result URL :=
  if stringContainsCTLByte rawURL
  then Err "net/url: invalid control character in URL"
  else if bool_decide (rawURL = "*")
  then Ok (mkURL "" "" "" "*" "" "")
  else
    '(scheme0, rest0) ← getScheme rawURL;
    let scheme := ToLower scheme0 in
    let '(rest, rawQuery) :=
      if HasSuffixByte "?" rest0 && bool_decide (CountByte "?" rest0 = 1%nat)
      then (dropLast rest0, EmptyString)
      else let '(b, a, _) := Cut "?" rest0 in (b, a) in
    let rootless := negb (HasPrefix rest "/") in
    if rootless && negb (bool_decide (scheme = ""))
    then Ok (mkURL scheme rest "" "" rawQuery "")
    else if rootless && ContainsByte ":" (Cut "/" rest).1.1
    then Err "first path segment in URL cannot contain colon"
    else if (negb (bool_decide (scheme = "")) || negb (HasPrefix rest "///"))
            && HasPrefix rest "//"
    then
      let authority0 := dropBytes 2 rest in
      let '(authority, rest') :=
        match SplitAtIndex "/" authority0 with
        | Some (a, r) => (a, r)
        | None => (authority0, EmptyString)
        end in
      host ← parseAuthority authority;
      path ← unescape rest' encodePath;
      Ok (mkURL scheme "" host path rawQuery "")
    else
      path ← unescape rest encodePath;
      Ok (mkURL scheme "" "" path rawQuery "").

Definition Parse (rawURL : string) : result URL :=
  let '(u, frag, _) := Cut "#" rawURL in
  url ← parse u;
  if bool_decide (frag = "") then Ok url
  else
    f ← unescape frag encodeFragment;
    Ok (mkURL (Scheme url) (Opaque url) (Host url) (Path url) (RawQuery url) f).

(** [splitHostPort], first component. *)
Definition Hostname (u : URL) : string :=
  let host :=
    match CutLast ":" (Host u) with
    | Some (h, port) =>
        if validOptionalPort (String ":" port) then h else Host u
    | None => Host u
    end in
  if HasPrefix host "[" && HasSuffixByte "]" host
  then dropLast (dropBytes 1 host)
  else host.

End url.

(** ** The closures of [main] *)

Inductive action :=
| Send (c : change)        (* changeCh <- c *)
| Incoming (it : item)     (* incomingItems <- it *)
| LqAdd (it : item)        (* app.lq.add(it) *)
| LqRemove (id : Z)        (* app.lq.remove(id) *)
| Log (msg : string).      (* log.Println(msg) *)

Global Instance action_eq_dec : EqDecision action.
Proof. solve_decision. Defined.

(** The Change Event Stream: what [changeLogger] receives from [changeCh], in
    the order of the sends. *)
Definition changeStream (acts : list action) : list change :=
  omap (λ a, match a with Send c => Some c | _ => None end) acts.

(** A call either returns or panics. *)
Inductive outcome (A : Type) :=
| Returns (a : A)
| Panics (msg : string).
Arguments Returns {A} a.
Arguments Panics {A} msg.

(** [r := strings.NewReplacer(...)] *)
Definition r : list (string * string) :=
  [("http://", ""); ("https://", ""); ("www.", ""); ("www2.", "");
   ("www3.", "")]%string.

Definition urlToDomain (link : string) : result string :=
  match url.Parse link with
  | Err err => Err err
  | Ok u =>
      let parts := strings.Split "." (url.Hostname u) in
      if bool_decide (2 ≤ length parts)%nat then
        let domain :=
          String.append (nth (length parts - 2) parts EmptyString)
            (String.append "." (nth (length parts - 1) parts EmptyString)) in
        Ok domain
      else Ok (strings.Replace r (url.Hostname u))
  end.

(** [fetchTopStories(ctx, limit)].  [remote] stands for the request, the
    response and the JSON decoding of its body: [Err] when one of them fails,
    else the decoded [itemList].  The slice expression [items[:limit]] panics
    when [limit] is negative. *)
Definition fetchTopStories (remote : result (list Z)) (limit : Z)
  : outcome (result (list Z)) :=
  match remote with
  | Err err => Returns (Err err)
  | Ok items =>
      let limit := if bool_decide (Z.of_nat (length items) < limit)
                   then Z.of_nat (length items) else limit in
      if bool_decide (limit < 0) then Panics "slice bounds out of range"
      else Returns (Ok (take (Z.to_nat limit) items))
  end.

(** The file decodes to a [[]*item]: a JSON [null] in the array gives a nil
    pointer, [None] here.  Reading a field through it panics. *)
Definition nilDereference : string :=
  "invalid memory address or nil pointer dereference".

(** [fetchStoriesFromFile(inputFilePath)]: [file] stands for opening and
    decoding the file. *)
Definition fetchStoriesFromFile (file : result (list (option item)))
  : result (list (option item)) :=
  match file with
  | Err err => Err err
  | Ok items => Ok items
  end.

(** [if it.From == "" { it.From = itemFromFile }] *)
Definition tagFileItem (it : item) : item :=
  if bool_decide (From it = EmptyString) then set_From itemFromFile it else it.

(** The loop of [serverInputsToUserFetcher]: what is sent on [incomingItems]
    and how the loop ends; [it.From] panics on a nil element, after the
    elements before it were sent. *)
Fixpoint sendFileItems (items : list (option item))
  : list action * outcome unit :=
  match items with
  | [] => ([], Returns tt)
  | None :: _ => ([], Panics nilDereference)
  | Some it :: rest =>
      let '(acts, ending) := sendFileItems rest in
      (Incoming (tagFileItem it) :: acts, ending)
  end.

(** [serverInputsToUserFetcher]: what is sent on [incomingItems], and the
    returned error or the panic. *)
Definition serverInputsToUserFetcher (file : result (list (option item)))
  : list action * outcome (option error) :=
  match fetchStoriesFromFile file with
  | Err err => ([], Returns (Some err))
  | Ok items =>
      let '(acts, ending) := sendFileItems items in
      (acts, match ending with
             | Returns _ => Returns None
             | Panics m => Panics m
             end)
  end.

(** The loop of [topStoriesFetcher] over [itemIds].  [appCtxErr n] says whether
    [appCtx.Err() != nil] at the [n]-th iteration; [fetchItem id] is the result
    of the request for [id] and of decoding its body. *)
Fixpoint topStoriesLoop (appCtxErr : nat → bool) (fetchItem : Z → result item)
    (n : nat) (itemIds : list Z) : list action :=
  match itemIds with
  | [] => []
  | itID :: rest =>
      if appCtxErr n then []
      else
        match fetchItem itID with
        | Err err => Log err :: topStoriesLoop appCtxErr fetchItem (S n) rest
        | Ok it => Incoming it :: topStoriesLoop appCtxErr fetchItem (S n) rest
        end
  end.

Definition topStoriesFetcher (remote : result (list Z))
    (appCtxErr : nat → bool) (fetchItem : Z → result item) (limit : Z)
  : outcome (list action * option error) :=
  match fetchTopStories remote limit with
  | Panics m => Panics m
  | Returns (Err err) => Returns ([], Some err)
  | Returns (Ok itemIds) =>
      Returns (topStoriesLoop appCtxErr fetchItem 0 itemIds, None)
  end.

Definition nanosPerSecond : Z := 1000000000.

(** [time.Now().Unix()] for a clock reading [now] in nanoseconds since the
    epoch. *)
Definition unixSeconds (now : Z) : Z := now `div` nanosPerSecond.

(** [fmt.Sprintf(hnPostLink, id)] *)
Definition hnPostLink (id : Z) : string :=
  String.append hnPostLinkPrefix (pretty id).

Section StoryLister.

(** The tracker method [app.lq.add], which is declared outside [main.go];
    it returns the evicted item, if any, and the new tracker, and does not
    write to the item it is given. *)
Variable lq_add : item → limitQueue → option item * limitQueue.

(** The three normalisation steps of the body of [storyLister], with the
    lines they log. *)
Definition setAdded (now : Z) (it : item) : item :=
  if bool_decide (Added it = 0) then set_Added (unixSeconds now) it else it.

Definition setDomain (it : item) : item * list action :=
  if bool_decide (Domain it = EmptyString) then
    match urlToDomain (URL it) with
    | Ok domain => (set_Domain domain it, [])
    | Err err => (it, [Log err])
    end
  else (it, []).

Definition setDiscussLink (it : item) : item :=
  if bool_decide (From it ≠ itemFromFile)
  then set_DiscussLink (hnPostLink (ID it)) it else it.

Definition normalize (now : Z) (it : item) : item :=
  setDiscussLink (setDomain (setAdded now it)).1.

(** One iteration of [for item := range incomingItems], at clock reading
    [now]. *)
Definition storyListerItem (now : Z) (it : item) (lq : limitQueue)
  : limitQueue * list action :=
  let it1 := setAdded now it in
  let '(it2, logged) := setDomain it1 in
  let it3 := setDiscussLink it2 in
  let '(removedItemIfAny, lq') := lq_add it3 lq in
  (lq',
   logged ++ [LqAdd it3] ++
   match removedItemIfAny with
   | Some removed => [Send (mkChange changeRemove removed)]
   | None => []
   end ++
   [Send (mkChange changeAdd it3)]).

(** [storyLister]: the items received on [incomingItems], each with the
    clock reading of its iteration. *)
Fixpoint storyLister (incoming : list (Z * item)) (lq : limitQueue)
  : limitQueue * list action :=
  match incoming with
  | [] => (lq, [])
  | (now, it) :: rest =>
      let '(lq1, acts1) := storyListerItem now it lq in
      let '(lq2, acts2) := storyLister rest lq1 in
      (lq2, acts1 ++ acts2)
  end.

End StoryLister.

(** ** [storyRemover] *)

Definition maxDuration : Z := 2 ^ 63 - 1.
Definition minDuration : Z := - 2 ^ 63.

(** [unixToInternal]: the seconds from year 1 to 1970. *)
Definition unixToInternal : Z := 62135596800.

(** An [int64] sum or product keeps the low 64 bits. *)
Definition wrap64 (z : Z) : Z := (z + 2 ^ 63) `mod` 2 ^ 64 - 2 ^ 63.

(** [time.Unix(sec, 0)]: the [Time] holds [sec + unixToInternal], an [int64]
    sum that wraps for the largest values of [sec]. *)
Definition timeUnix (sec : Z) : Z := wrap64 (sec + unixToInternal).

(** [time.Since(time.Unix(added, 0))] in nanoseconds, at clock reading [now]
    (nanoseconds since the Unix epoch, as [time.Now()] reads them).  It is
    [time.Now().Sub(u)]: the difference of the two times when it fits a
    [time.Duration] (an [int64] of nanoseconds), else [minDuration] when now
    is before [u] and [maxDuration] when it is after: the exact difference
    brought into the range of the type. *)
Definition Since (now added : Z) : Z :=
  let d := (unixSeconds now + unixToInternal - timeUnix added) * nanosPerSecond
           + now `mod` nanosPerSecond in
  minDuration `max` (d `min` maxDuration).

(** [time.Since(...).Seconds() > eightHrs].  [Seconds] is the [float64]
    [sec + nsec/1e9]; the whole part is below [2^34] and the comparison is with
    a whole number of seconds, so rounding does not change its result and it
    is the comparison of the nanosecond counts. *)
Definition olderThanEightHrs (now added : Z) : bool :=
  bool_decide (eightHrs * nanosPerSecond < Since now added).

(** [for _, it := range fileItems { if id == it.ID { ... break } }]: [it.ID]
    panics on a nil element that the search reaches. *)
Fixpoint fileHasID (id : Z) (fileItems : list (option item)) : outcome bool :=
  match fileItems with
  | [] => Returns false
  | None :: _ => Panics nilDereference
  | Some f :: rest =>
      if bool_decide (id = ID f) then Returns true else fileHasID id rest
  end.

(** The [switch it.From] of [storyRemover] that sets [stillAtTop]. *)
Definition stillAtTop (topItems : list Z) (fileItems : list (option item))
    (id : Z) (it : item) : outcome bool :=
  if bool_decide (From it = itemFromFile)
  then fileHasID id fileItems
  else Returns (existsb (λ tid, bool_decide (tid = id)) topItems).

(** The loop [for id, it := range app.lq.store].  Go fixes no iteration order
    for a map: [order] is the order of this run.  An entry deleted before it
    is reached is not produced.  [ctxErr n] says whether [ctx.Err() != nil] at
    the [n]-th iteration and [clock n] is the clock reading there.  The result
    is the tracker and the actions when the loop ends, and whether it ends by
    itself or in a panic. *)
Fixpoint sweep (ctxErr : nat → bool) (clock : nat → Z) (topItems : list Z)
    (fileItems : list (option item)) (n : nat) (order : list Z)
    (lq : limitQueue) : limitQueue * list action * outcome unit :=
  match order with
  | [] => (lq, [], Returns tt)
  | id :: rest =>
      match store lq !! id with
      | None => sweep ctxErr clock topItems fileItems n rest lq
      | Some it =>
          if ctxErr n then (lq, [], Returns tt)
          else
            match stillAtTop topItems fileItems id it with
            | Panics m => (lq, [], Panics m)
            | Returns atTop =>
                if negb atTop && olderThanEightHrs (clock n) (Added it)
                then
                  let '(lq', acts, ending) :=
                    sweep ctxErr clock topItems fileItems (S n) rest
                          (LimitQueue.remove id lq) in
                  (lq', Send (mkChange changeRemove it) :: LqRemove id :: acts,
                   ending)
                else sweep ctxErr clock topItems fileItems (S n) rest lq
            end
      end
  end.

(** [storyRemover]: the tracker and the actions when the call ends, and the
    returned error or the panic. *)
Definition storyRemover (remote : result (list Z))
    (file : result (list (option item)))
    (ctxErr : nat → bool) (clock : nat → Z) (order : list Z) (lq : limitQueue)
  : limitQueue * list action * outcome (option error) :=
  match fetchTopStories remote frontPageNumArticles with
  | Panics m => (lq, [], Panics m)
  | Returns (Err err) => (lq, [], Returns (Some err))
  | Returns (Ok topItems) =>
      match fetchStoriesFromFile file with
      | Err err => (lq, [], Returns (Some err))
      | Ok fileItems =>
          let '(lq', acts, ending) :=
            sweep ctxErr clock topItems fileItems 0 order lq in
          (lq', acts, match ending with
                      | Returns _ => Returns None
                      | Panics m => Panics m
                      end)
      end
  end.

(** An iteration order of the map: every key once. *)
Definition iterationOrder (order : list Z) (m : gmap Z item) : Prop :=
  NoDup order ∧ ∀ id, id ∈ order ↔ is_Some (m !! id).

(** ** The rest of [main.go] *)

(** [func (c change) String() string]: [fmt.Sprintf("%s : %d", c.Action,
    c.Item.ID)]. *)
Definition change_String (c : change) : string :=
  String.append (changeAction_string (Action c))
    (String.append " : " (pretty (ID (Item c)))).

(** [changeLogger]: one line per change received. *)
Definition changeLogger (received : list change) : list action :=
  map (λ c, Log (change_String c)) received.

(** [net.SplitHostPort] of the Go standard library, which [realIP] calls on
    [r.RemoteAddr]. *)
Module net.

Import strings.

Definition missingPort : error := "missing port in address".
Definition tooManyColons : error := "too many colons in address".

Definition SplitHostPort (hostport : string) : result (string * string) :=
  match CutLast ":" hostport with
  | None => Err missingPort
  | Some (upto, port) =>
      (* [i = len(upto)], [port = hostport[i+1:]] *)
      if HasPrefix hostport "[" then
        let '(inner, after, found) := Cut "]" hostport in
        (* [end = len(inner)], [after = hostport[end+1:]] *)
        if negb found then Err "missing ']' in address"
        else if bool_decide (after = EmptyString) then Err missingPort
        else if bool_decide (S (String.length inner) = String.length upto) then
          let host := dropBytes 1 inner in
          if ContainsByte "[" (dropBytes 1 hostport)
          then Err "unexpected '[' in address"
          else if ContainsByte "]" after
          then Err "unexpected ']' in address"
          else Ok (host, port)
        else if HasPrefix after ":" then Err tooManyColons
        else Err missingPort
      else
        if ContainsByte ":" upto then Err tooManyColons
        else if ContainsByte "[" hostport then Err "unexpected '[' in address"
        else if ContainsByte "]" hostport then Err "unexpected ']' in address"
        else Ok (upto, port)
  end.

End net.

(** [realIP(r)]: [xForwardedFor] and [xRealIP] are what [r.Header.Get]
    returns for the two headers (the empty string when the header is
    absent), [remoteAddr] is [r.RemoteAddr].  [strings.Split(ip, ", ")[0]] is
    the text before the first [", "], or all of [ip]; the errors of
    [net.SplitHostPort] are dropped and leave the empty host. *)
Definition realIP (xForwardedFor xRealIP remoteAddr : string) : string :=
  if negb (bool_decide (xForwardedFor = EmptyString)) then
    match strings.SplitAtIndex ", " xForwardedFor with
    | Some (first, _) => first
    | None => xForwardedFor
    end
  else if negb (bool_decide (xRealIP = EmptyString)) then xRealIP
  else
    match net.SplitHostPort remoteAddr with
    | Ok (ra, _) => ra
    | Err _ => EmptyString
    end.

(** *** The GeoIP database downloader *)

(** The variables of [main] that [fetchLatestMmdb] and [mmdbDownloader]
    capture.  A reader is identified by the path it was opened from. *)
Record mmdbState := mkMmdbState {
  fileDownloadCount : Z;
  serverETag : string;
  mmdbPath : string;
  newFilePath : string;
  ETag : string;
  geoIPReader : string
}.

Definition mmdbInitialPath : string := "GeoLite2-City.mmdb".

(** [fmt.Sprintf("GeoLite2-City-%d.mmdb", n)] *)
Definition mmdbFileName (n : Z) : string :=
  String.append "GeoLite2-City-" (String.append (pretty n) ".mmdb").

(** The state when the ticker starts: [etag] is the [ETag] header of the
    first [HEAD] response. *)
Definition mmdbStart (etag : string) : mmdbState :=
  mkMmdbState 0 etag mmdbInitialPath EmptyString EmptyString mmdbInitialPath.

(** What the outside world answers during one tick, in the order of the
    calls: the [HEAD] request (its [Last-Modified] header and, when
    [time.Parse] accepts it, whether it is after [time.Now()]), [os.Create],
    the [GET] request, [gzip.NewReader], [io.Copy], [geoip2.Open] and
    [os.Remove].  [None] is a nil error. *)
Record mmdbTick := mkMmdbTick {
  headResponse : result (string * result bool);
  createFile : option error;
  getResponse : option error;
  gzipReader : option error;
  copyBody : option error;
  openReader : option error;
  removeOld : option error
}.

Inductive fsAction :=
| FsCreate (path : string)     (* os.Create(path) succeeded *)
| FsOpen (path : string)       (* geoip2.Open(path) succeeded *)
| FsRemove (path : string)     (* os.Remove(path) was called *)
| FsLog (msg : string).        (* log.Println(msg) *)

Definition firstError (steps : list (option error)) : option error :=
  list_find is_Some steps ≫= λ p, p.2.

Definition mmdbNotNewer : error :=
  "ETag != serverETag || lastModified.After(time.Now()) is not true".

(** [fetchLatestMmdb(ctx)]: the new state, the file operations, and the reader
    or the error. *)
Definition fetchLatestMmdb (st : mmdbState) (tk : mmdbTick)
  : mmdbState * list fsAction * result string :=
  let path := mmdbFileName (fileDownloadCount st) in
  let st1 := mkMmdbState (fileDownloadCount st) (serverETag st) (mmdbPath st)
                         path (ETag st) (geoIPReader st) in
  match headResponse tk with
  | Err err => (st1, [], Err err)
  | Ok (lastModifiedHeader, parsed) =>
      let st2 := mkMmdbState (fileDownloadCount st) (serverETag st)
                             (mmdbPath st) path lastModifiedHeader
                             (geoIPReader st) in
      match parsed with
      | Err err => (st2, [], Err err)
      | Ok after =>
          if negb (bool_decide (lastModifiedHeader = serverETag st)) || after
          then
            match createFile tk with
            | Some err => (st2, [], Err err)
            | None =>
                match firstError [getResponse tk; gzipReader tk; copyBody tk] with
                | Some err => (st2, [FsCreate path], Err err)
                | None =>
                    let st3 := mkMmdbState (fileDownloadCount st + 1)
                                 (serverETag st) (mmdbPath st) path
                                 lastModifiedHeader (geoIPReader st) in
                    match openReader tk with
                    | Some err => (st3, [FsCreate path], Err err)
                    | None => (st3, [FsCreate path; FsOpen path], Ok path)
                    end
                end
            end
          else (st2, [], Err mmdbNotNewer)
      end
  end.

(** One iteration of [for range time.Tick(twentyFourHrs)] in
    [mmdbDownloader]. *)
Definition mmdbDownloaderTick (st : mmdbState) (tk : mmdbTick)
  : mmdbState * list fsAction :=
  match fetchLatestMmdb st tk with
  | (st', acts, Err err) => (st', acts ++ [FsLog err])
  | (st', acts, Ok reader) =>
      let st1 := mkMmdbState (fileDownloadCount st') (serverETag st')
                             (mmdbPath st') (newFilePath st') (ETag st')
                             reader in
      match removeOld tk with
      | Some err => (st1, acts ++ [FsRemove (mmdbPath st1); FsLog err])
      | None =>
          (mkMmdbState (fileDownloadCount st1) (ETag st1) (newFilePath st1)
                       (newFilePath st1) (ETag st1) (geoIPReader st1),
           acts ++ [FsRemove (mmdbPath st1)])
      end
  end.

(** [mmdbDownloader]: the ticks in order. *)
Fixpoint mmdbDownloader (ticks : list mmdbTick) (st : mmdbState)
  : mmdbState * list (list fsAction) :=
  match ticks with
  | [] => (st, [])
  | tk :: rest =>
      let '(st1, acts) := mmdbDownloaderTick st tk in
      let '(st2, later) := mmdbDownloader rest st1 in
      (st2, acts :: later)
  end.

(** *** The whole tracker pipeline *)

(** The states of the tracker of [main]: it starts as [queue], and only an
    iteration of [storyLister] and a pass of [storyRemover] change it, each
    under [app.Lock()].  The state a pass leaves when it panics is one of
    them. *)
Inductive trackerReachable : limitQueue → Prop :=
| reach_start : trackerReachable queue
| reach_lister now it lq :
    trackerReachable lq →
    trackerReachable (storyListerItem LimitQueue.add now it lq).1
| reach_remover remote file ctxErr clock order lq lq' acts ending :
    trackerReachable lq →
    storyRemover remote file ctxErr clock order lq = (lq', acts, ending) →
    trackerReachable lq'.

(** *** Auxiliary notions of the further properties *)

(** The second counts that [time.Unix] has a time for: the [int64] values
    whose sum with [unixToInternal] is an [int64] too. *)
Definition unixRepresentable (sec : Z) : Prop :=
  - 2 ^ 63 ≤ sec < 2 ^ 63 - unixToInternal.

(** A decoded file without nil elements. *)
Definition pointers (items : list item) : list (option item) := Some <$> items.

(** The events of one iteration of [storyLister]: the [removed] event when
    [add] evicted an item, then the [added] event. *)
Definition iterationEvents (evicted : option item) (it : item) : list change :=
  match evicted with
  | Some removed => [mkChange changeRemove removed]
  | None => []
  end ++ [mkChange changeAdd it].

(** What one iteration of the loop of [topStoriesFetcher] does with the answer
    to [fetchItem]. *)
Definition fetchedAction (fetchItem : Z → result item) (id : Z) : action :=
  match fetchItem id with
  | Ok it => Incoming it
  | Err err => Log err
  end.

(** No colon and no bracket. *)
Definition plainText (s : string) : bool :=
  negb (strings.ContainsByte ":" s) && negb (strings.ContainsByte "[" s)
  && negb (strings.ContainsByte "]" s).

(** The text after the last dot. *)
Definition lastLabel (s : string) : string :=
  match strings.CutLast "." s with
  | Some (_, label) => label
  | None => s
  end.

(** The files the downloader can know of while [count] downloads have
    succeeded: the initial one and the numbered ones. *)
Definition mmdbKnownPath (count : Z) (path : string) : Prop :=
  path = mmdbInitialPath ∨ ∃ k, 0 ≤ k < count ∧ path = mmdbFileName k.

(** The invariant of the downloader: the reader in use and [mmdbPath] are
    files from before the next download. *)
Definition mmdbSafe (st : mmdbState) : Prop :=
  0 ≤ fileDownloadCount st ∧
  mmdbKnownPath (fileDownloadCount st) (geoIPReader st) ∧
  mmdbKnownPath (fileDownloadCount st) (mmdbPath st).

(** A tick in which every step up to [os.Remove] succeeds. *)
Definition mmdbAllSucceed (lastModified : string) (after : bool)
    (remove : option error) : mmdbTick :=
  mkMmdbTick (Ok (lastModified, Ok after)) None None None None None remove.

(** * Properties *)

(** ** The tracker *)

Section TrackerFacts.
Import LimitQueue.

Lemma wf_length_size lq : wf lq → length (keys lq) = size (store lq).
Proof.
  intros [Hnd Hdom _].
  rewrite <- size_dom, <- (size_list_to_set (C := gset Z)) by done.
  f_equal. apply set_eq. intros k.
  rewrite elem_of_list_to_set, elem_of_dom. apply Hdom.
Qed.

Lemma wf_newQueue c : 0 ≤ c → wf (newQueue c).
Proof.
  intros Hc. split; simpl.
  - constructor.
  - intros k. rewrite lookup_empty.
    split; [by intros ?%elem_of_nil | by intros [? ?]].
  - done.
Qed.

Lemma add_present it lq x :
  store lq !! ID it = Some x →
  add it lq =
    (None, mkLimitQueue (limit lq) (keys lq) (<[ID it := it]> (store lq))).
Proof. intros H. unfold add. by rewrite H. Qed.

Lemma add_fresh_room it lq :
  store lq !! ID it = None →
  Z.of_nat (length (keys lq)) + 1 ≤ limit lq →
  add it lq = (None, mkLimitQueue (limit lq) (keys lq ++ [ID it])
                                  (<[ID it := it]> (store lq))).
Proof.
  intros H Hl. unfold add. rewrite H.
  rewrite bool_decide_eq_false_2; [done|].
  rewrite length_app. simpl. lia.
Qed.

Lemma add_fresh_full it lq :
  store lq !! ID it = None →
  limit lq < Z.of_nat (length (keys lq)) + 1 →
  ∃ oldest rest,
    keys lq ++ [ID it] = oldest :: rest ∧
    add it lq = (<[ID it := it]> (store lq) !! oldest,
                 mkLimitQueue (limit lq) rest
                   (delete oldest (<[ID it := it]> (store lq)))).
Proof.
  intros H Hl. unfold add. rewrite H.
  rewrite bool_decide_eq_true_2 by (rewrite length_app; simpl; lia).
  destruct (keys lq ++ [ID it]) as [|oldest rest] eqn:E.
  - by destruct (keys lq).
  - by exists oldest, rest.
Qed.

Lemma add_limit it lq : limit (add it lq).2 = limit lq.
Proof.
  unfold add.
  destruct (store lq !! ID it); [done|]. cbv zeta.
  case_bool_decide; [|done].
  by destruct (keys lq ++ [ID it]).
Qed.

Lemma adds_limit its lq : limit (adds its lq) = limit lq.
Proof.
  revert lq. induction its as [|it its IH]; intros lq; [done|].
  simpl. by rewrite IH, add_limit.
Qed.

(** [add] keeps the invariant: the three cases are the overwrite, the
    append with room left and the append that evicts. *)
Lemma add_wf it lq : wf lq → wf (add it lq).2.
Proof.
  intros Hwf. pose proof Hwf as [Hnd Hdom Hb].
  destruct (store lq !! ID it) as [x|] eqn:E.
  - rewrite (add_present _ _ _ E). split; simpl; [done| |done].
    intros k. rewrite Hdom. destruct (decide (k = ID it)) as [->|Hne].
    + rewrite lookup_insert_eq, E. split; eauto.
    + by rewrite lookup_insert_ne.
  - assert (Hfresh : ID it ∉ keys lq).
    { rewrite Hdom, E. by intros [? ?]. }
    assert (Hnd' : NoDup (keys lq ++ [ID it])).
    { apply NoDup_app. split_and!; [done| |apply NoDup_singleton].
      intros k Hk ->%list_elem_of_singleton. done. }
    assert (Hdom' : ∀ k, k ∈ keys lq ++ [ID it] ↔
                         is_Some (<[ID it := it]> (store lq) !! k)).
    { intros k. rewrite elem_of_app, list_elem_of_singleton, Hdom.
      destruct (decide (k = ID it)) as [->|Hne].
      - rewrite lookup_insert_eq. split; eauto.
      - rewrite lookup_insert_ne by done. intuition congruence. }
    destruct (decide (Z.of_nat (length (keys lq)) + 1 ≤ limit lq))
      as [Hroom|Hfull].
    + rewrite add_fresh_room by done. split; simpl; [done|done|].
      rewrite length_app. simpl. lia.
    + destruct (add_fresh_full it lq E) as (oldest & rest & Hk & ->); [lia|].
      rewrite Hk in Hnd', Hdom'. apply NoDup_cons in Hnd' as [Hno Hnd'].
      split; simpl; [done| |].
      * intros k. destruct (decide (k = oldest)) as [->|Hne].
        -- rewrite lookup_delete_eq. split; [done|by intros [? ?]].
        -- rewrite lookup_delete_ne by done. rewrite <- Hdom'.
           rewrite elem_of_cons. intuition congruence.
      * apply (f_equal length) in Hk. rewrite length_app in Hk.
        simpl in Hk. lia.
Qed.

Lemma adds_wf its lq : wf lq → wf (adds its lq).
Proof.
  revert lq. induction its as [|it its IH]; intros lq Hwf; [done|].
  simpl. apply IH. by apply add_wf.
Qed.

Lemma remove_wf id lq : wf lq → wf (remove id lq).
Proof.
  intros [Hnd Hdom Hb]. split; simpl.
  - by apply NoDup_filter.
  - intros k. rewrite list_elem_of_filter, Hdom.
    destruct (decide (k = id)) as [->|Hne].
    + rewrite lookup_delete_eq. split; [by intros [? _]|by intros [? ?]].
    + rewrite lookup_delete_ne by done. intuition congruence.
  - pose proof (length_filter (λ k, k ≠ id) (keys lq)). lia.
Qed.

End TrackerFacts.

(** C1.  Whatever items are added to the tracker of [main] (limit 300), and
    after each of the calls (after the first [n] of them, for every [n]): the
    store holds at most 300 items, [keys] is as long as the store has
    entries, and a key is in [keys] exactly when the store has an entry for
    it. *)
Theorem tracker_capacity_invariant (its : list item) (n : nat) :
  let lq := LimitQueue.adds (take n its) queue in
  Z.of_nat (size (store lq)) ≤ humanTrackingLimit ∧
  length (keys lq) = size (store lq) ∧
  ∀ k, k ∈ keys lq ↔ is_Some (store lq !! k).
Proof.
  intros lq.
  assert (Hwf : LimitQueue.wf lq) by (apply adds_wf, wf_newQueue; done).
  assert (Hlim : limit lq = humanTrackingLimit) by apply adds_limit.
  split_and!.
  - rewrite <- wf_length_size by done. rewrite <- Hlim. apply Hwf.
  - by apply wf_length_size.
  - apply Hwf.
Qed.



(** C3.  Adding an item whose ID the store already has returns nothing
    removed, stores the new item under that ID, and leaves [keys], the limit,
    every other entry and the number of entries as they were. *)
Theorem add_existing_overwrites (lq : limitQueue) (it : item) :
  is_Some (store lq !! ID it) →
  ∃ lq', LimitQueue.add it lq = (None, lq') ∧
         keys lq' = keys lq ∧
         limit lq' = limit lq ∧
         store lq' !! ID it = Some it ∧
         (∀ k, k ≠ ID it → store lq' !! k = store lq !! k) ∧
         size (store lq') = size (store lq).
Proof.
  intros [x Hx]. eexists. split; [by apply add_present with x|]. simpl.
  split_and!; [done|done|by rewrite lookup_insert_eq| |].
  - intros k Hk. by rewrite lookup_insert_ne.
  - by apply map_size_insert_Some.
Qed.

Lemma add_existing_overwrites_witness :
  let old := mkItem 1 "http://a.com/1" 5 "a.com" "hn" "" in
  let new := mkItem 1 "http://b.org/2" 0 "" "hn" "" in
  let lq := mkLimitQueue 1 [1] {[1 := old]} in
  ∃ lq', LimitQueue.add new lq = (None, lq') ∧
         keys lq' = [1] ∧
         limit lq' = 1 ∧
         store lq' !! 1 = Some new ∧
         (∀ k, k ≠ 1 → store lq' !! k = store lq !! k) ∧
         size (store lq') = size (store lq).
Proof.
  intros old new lq. apply (add_existing_overwrites lq new). by exists old.
Defined.

(** ** Domain derivation *)

Lemma setDomain_idem it : (setDomain (setDomain it).1).1 = (setDomain it).1.
Proof.
  unfold setDomain at 2 3.
  case_bool_decide as Hd.
  - destruct (urlToDomain (URL it)) as [d|e] eqn:E; simpl.
    + unfold setDomain. simpl. case_bool_decide as Hd'; [|done].
      rewrite E. simpl. by rewrite Hd'.
    + unfold setDomain. rewrite bool_decide_eq_true_2 by done. by rewrite E.
  - simpl. unfold setDomain. by rewrite bool_decide_eq_false_2.
Qed.

(** C4, as stated, fails: [example.com/x] has no scheme and no [//], so
    [url.Parse] puts the whole text in the path, the hostname is empty and the
    derived domain is the empty string, not [example.com]. *)
Lemma domain_of_schemeless_url_counterexample :
  ¬ (urlToDomain "https://www.example.com/x" = Ok "example.com"%string ∧
     urlToDomain "example.com/x" = Ok "example.com"%string).
Proof. intros [_ H]. vm_compute in H. discriminate H. Qed.

(** C4, amended.  [urlToDomain] yields [example.com] for
    [https://www.example.com/x]; for [example.com/x] it yields the empty
    string, a host being recognised only after [//] (so [//example.com/x]
    yields [example.com]); and deriving the domain of an item a second time
    gives the item the first derivation gave. *)
Theorem domain_derivation :
  urlToDomain "https://www.example.com/x" = Ok "example.com"%string ∧
  urlToDomain "example.com/x" = Ok EmptyString ∧
  urlToDomain "//example.com/x" = Ok "example.com"%string ∧
  ∀ it, (setDomain (setDomain it).1).1 = (setDomain it).1.
Proof. split_and!; [reflexivity..|apply setDomain_idem]. Qed.

(** ** The ingestion consumer *)

Lemma setDomain_logs it : Forall (λ a, ∃ m, a = Log m) (setDomain it).2.
Proof.
  unfold setDomain. case_bool_decide; [|by constructor].
  destruct (urlToDomain (URL it)); simpl; repeat constructor. by eexists.
Qed.

Lemma changeStream_app a b :
  changeStream (a ++ b) = changeStream a ++ changeStream b.
Proof. apply omap_app. Qed.

Lemma changeStream_logs acts :
  Forall (λ a, ∃ m, a = Log m) acts → changeStream acts = [].
Proof. induction 1 as [|a acts [m ->] _ IH]; done. Qed.

(** The body of the loop in terms of [normalize]. *)
Lemma storyListerItem_eq lq_add now it lq :
  storyListerItem lq_add now it lq =
    ((lq_add (normalize now it) lq).2,
     (setDomain (setAdded now it)).2 ++ [LqAdd (normalize now it)] ++
     match (lq_add (normalize now it) lq).1 with
     | Some removed => [Send (mkChange changeRemove removed)]
     | None => []
     end ++ [Send (mkChange changeAdd (normalize now it))]).
Proof.
  unfold storyListerItem, normalize.
  destruct (setDomain (setAdded now it)) as [it2 logged]. simpl.
  by destruct (lq_add (setDiscussLink it2) lq) as [rm lq'].
Qed.

(** With the tracker's own [add], the loop leaves the tracker that the
    sequence of [add] calls on the normalised items builds. *)
Lemma storyLister_tracker incoming : ∀ lq,
  (storyLister LimitQueue.add incoming lq).1 =
    LimitQueue.adds (map (λ p, normalize p.1 p.2) incoming) lq.
Proof.
  induction incoming as [|[now it] rest IH]; intros lq; [done|].
  simpl. rewrite storyListerItem_eq.
  specialize (IH (LimitQueue.add (normalize now it) lq).2).
  destruct (storyLister LimitQueue.add rest _) as [lq2 acts2]. by simpl in *.
Qed.

Lemma normalize_fields now it :
  ID (normalize now it) = ID it ∧ From (normalize now it) = From it ∧
  URL (normalize now it) = URL it.
Proof.
  unfold normalize, setDiscussLink, setDomain, setAdded.
  repeat (case_bool_decide || case_match); simplify_eq; done.
Qed.

(** C5.  When the [add] of an iteration of [storyLister] returns an evicted
    item, the iteration sends exactly two events on [changeCh]: first
    [removed] with the evicted item, then [added] with the ingested item.
    This holds whatever [add] does to the tracker. *)
Theorem removal_before_addition
    (lq_add : item → limitQueue → option item * limitQueue)
    (now : Z) (it : item) (lq lq' : limitQueue) (evicted : item) :
  lq_add (normalize now it) lq = (Some evicted, lq') →
  ∃ acts,
    storyListerItem lq_add now it lq = (lq', acts) ∧
    changeStream acts = [mkChange changeRemove evicted;
                         mkChange changeAdd (normalize now it)] ∧
    ∃ logged,
      acts = logged ++ [LqAdd (normalize now it);
                        Send (mkChange changeRemove evicted);
                        Send (mkChange changeAdd (normalize now it))] ∧
      Forall (λ a, ∃ m, a = Log m) logged.
Proof.
  intros Hadd. rewrite storyListerItem_eq, Hadd. simpl.
  eexists. split; [done|]. split.
  - rewrite changeStream_app, changeStream_logs by apply setDomain_logs. done.
  - eexists. split; [done|]. apply setDomain_logs.
Qed.

Lemma removal_before_addition_witness :
  let old := mkItem 1 "" 7 "a.com" "file" "" in
  let new := mkItem 2 "" 9 "b.org" "file" "" in
  let lq := mkLimitQueue 1 [1] {[1 := old]} in
  ∃ acts,
    storyListerItem LimitQueue.add 0 new lq =
      (mkLimitQueue 1 [2] {[2 := new]}, acts) ∧
    changeStream acts = [mkChange changeRemove old; mkChange changeAdd new] ∧
    ∃ logged,
      acts = logged ++ [LqAdd new; Send (mkChange changeRemove old);
                        Send (mkChange changeAdd new)] ∧
      Forall (λ a, ∃ m, a = Log m) logged.
Proof.
  intros old new lq.
  apply (removal_before_addition LimitQueue.add 0 new lq
           (mkLimitQueue 1 [2] {[2 := new]}) old).
  reflexivity.
Defined.

(** C10.  When the domain of an incoming item is to be derived and
    [urlToDomain] fails, the iteration logs the error, calls [add] with the
    item, whose [Domain] is as it came, sends the [removed] event if [add]
    evicted something, and ends with the [added] event. *)
Theorem domain_error_does_not_abort
    (lq_add : item → limitQueue → option item * limitQueue)
    (now : Z) (it : item) (lq : limitQueue) (err : error) :
  Domain it = EmptyString →
  urlToDomain (URL it) = Err err →
  let it' := normalize now it in
  Domain it' = Domain it ∧
  ∃ evictions,
    storyListerItem lq_add now it lq =
      ((lq_add it' lq).2,
       [Log err; LqAdd it'] ++ evictions ++ [Send (mkChange changeAdd it')]) ∧
    evictions = match (lq_add it' lq).1 with
                | Some removed => [Send (mkChange changeRemove removed)]
                | None => []
                end.
Proof.
  intros Hd Herr it'.
  assert (Hs : setDomain (setAdded now it) = (setAdded now it, [Log err])).
  { unfold setDomain.
    assert (Domain (setAdded now it) = EmptyString) as ->
      by (unfold setAdded; case_bool_decide; done).
    assert (URL (setAdded now it) = URL it) as ->
      by (unfold setAdded; case_bool_decide; done).
    rewrite bool_decide_eq_true_2 by done. by rewrite Herr. }
  split.
  - subst it'. unfold normalize. rewrite Hs. simpl.
    unfold setDiscussLink, setAdded. repeat case_bool_decide; done.
  - eexists. split; [|done]. rewrite storyListerItem_eq. fold it'. by rewrite Hs.
Qed.

Lemma domain_error_does_not_abort_witness :
  let it := mkItem 4 ":x" 11 "" "hn" "" in
  let it' := normalize 0 it in
  Domain it' = Domain it ∧
  ∃ evictions,
    storyListerItem LimitQueue.add 0 it queue =
      ((LimitQueue.add it' queue).2,
       [Log "missing protocol scheme"; LqAdd it'] ++ evictions ++
       [Send (mkChange changeAdd it')]) ∧
    evictions = match (LimitQueue.add it' queue).1 with
                | Some removed => [Send (mkChange changeRemove removed)]
                | None => []
                end.
Proof.
  intros it.
  apply (domain_error_does_not_abort LimitQueue.add 0 it queue
           "missing protocol scheme"); reflexivity.
Defined.

(** ** Provenance tags *)

Lemma topStoriesLoop_sends appCtxErr fetchItem ids : ∀ n it,
  Incoming it ∈ topStoriesLoop appCtxErr fetchItem n ids →
  ∃ id, id ∈ ids ∧ fetchItem id = Ok it.
Proof.
  induction ids as [|id ids IH]; intros n it; simpl.
  { by intros ?%elem_of_nil. }
  destruct (appCtxErr n); [by intros ?%elem_of_nil|].
  destruct (fetchItem id) as [x|e] eqn:E; intros [Heq|Hin]%elem_of_cons.
  - simplify_eq. exists id. split; [by left|done].
  - destruct (IH _ _ Hin) as (i & ? & ?). exists i. split; [by right|done].
  - discriminate Heq.
  - destruct (IH _ _ Hin) as (i & ? & ?). exists i. split; [by right|done].
Qed.

Lemma serverInputsToUserFetcher_acts items :
  (serverInputsToUserFetcher (Ok items)).1 = (sendFileItems items).1.
Proof.
  unfold serverInputsToUserFetcher. simpl. by destruct (sendFileItems items).
Qed.

(** An element of the file is sent, at its own position, when no element
    before it is nil. *)
Lemma sendFileItems_lookup items : ∀ i it,
  items !! i = Some (Some it) →
  (∀ j, (j < i)%nat → items !! j ≠ Some None) →
  (sendFileItems items).1 !! i = Some (Incoming (tagFileItem it)).
Proof.
  induction items as [|[x|] items IH]; intros i it Hi Hnil; [done| |].
  - simpl. destruct (sendFileItems items) as [acts ending] eqn:E.
    destruct i as [|i]; simpl in *; [by simplify_eq|].
    apply IH; [done|]. intros j Hj. apply (Hnil (S j)). lia.
  - destruct i as [|i]; [done|]. by destruct (Hnil 0%nat); [lia|].
Qed.

(** C8, as stated, fails: an item of the file whose [From] is neither empty,
    [file] nor [hn] is sent with that tag, and [storyLister] keeps it. *)
Lemma from_tag_counterexample :
  let it := mkItem 1 "https://example.com/a" 0 "" "blog" "" in
  serverInputsToUserFetcher (Ok [Some it]) = ([Incoming it], Returns None) ∧
  From it ≠ itemFromFile ∧ From it ≠ itemFromHN ∧
  From (normalize 0 it) ≠ itemFromFile ∧ From (normalize 0 it) ≠ itemFromHN.
Proof. by vm_compute. Qed.

(** C8, amended.  An item of the file is sent with [From] set to [file] when
    its [From] is empty and unchanged otherwise; an item that
    [topStoriesFetcher] sends is the item the fetch of one of the IDs decoded;
    the normalisation in [storyLister] leaves [From] as received and reads it
    only to decide on [DiscussLink], which it sets for every tag other than
    [file]. *)
Theorem from_tag_handling :
  (∀ (items : list (option item)) (i : nat) (it : item),
     items !! i = Some (Some it) →
     (∀ j, (j < i)%nat → items !! j ≠ Some None) →
     ∃ sent,
       (serverInputsToUserFetcher (Ok items)).1 !! i = Some (Incoming sent) ∧
       (From it = EmptyString → sent = set_From itemFromFile it) ∧
       (From it ≠ EmptyString → sent = it)) ∧
  (∀ appCtxErr fetchItem n ids it,
     Incoming it ∈ topStoriesLoop appCtxErr fetchItem n ids →
     ∃ id, id ∈ ids ∧ fetchItem id = Ok it) ∧
  (∀ lq_add now it lq,
     let it' := normalize now it in
     From it' = From it ∧
     (From it ≠ itemFromFile → DiscussLink it' = hnPostLink (ID it)) ∧
     (From it = itemFromFile → DiscussLink it' = DiscussLink it) ∧
     LqAdd it' ∈ (storyListerItem lq_add now it lq).2 ∧
     last (storyListerItem lq_add now it lq).2 =
       Some (Send (mkChange changeAdd it'))).
Proof.
  split_and!.
  - intros items i it Hi Hnil.
    rewrite serverInputsToUserFetcher_acts, (sendFileItems_lookup _ _ it) by done.
    eexists. split; [done|]. unfold tagFileItem.
    case_bool_decide; split; intros; done.
  - intros. by eapply topStoriesLoop_sends.
  - intros lq_add now it lq it'.
    assert (HF : From (setDomain (setAdded now it)).1 = From it).
    { unfold setDomain, setAdded.
      repeat (case_bool_decide || case_match); simplify_eq; done. }
    assert (HI : ID (setDomain (setAdded now it)).1 = ID it).
    { unfold setDomain, setAdded.
      repeat (case_bool_decide || case_match); simplify_eq; done. }
    split_and!.
    + apply normalize_fields.
    + intros Hne. subst it'. unfold normalize, setDiscussLink.
      rewrite bool_decide_eq_true_2 by congruence. simpl. by rewrite HI.
    + intros He. subst it'. unfold normalize, setDiscussLink.
      rewrite bool_decide_eq_false_2 by (rewrite HF; intros H; by apply H).
      unfold setDomain, setAdded.
      repeat (case_bool_decide || case_match); simplify_eq; done.
    + rewrite storyListerItem_eq. simpl. fold it'.
      rewrite elem_of_app. right. by left.
    + rewrite storyListerItem_eq. cbn [snd]. rewrite !app_assoc.
      apply last_snoc.
Qed.

(** ** The remote fetcher *)

(** C9.  For a count [limit] that is not negative and a decoded list
    [items], [fetchTopStories] returns the first [min limit (length items)]
    IDs in list order: all of [items] when it is shorter than [limit], and
    never more than [limit] IDs. *)
Theorem fetchTopStories_truncates (items : list Z) (limit : Z) :
  0 ≤ limit →
  ∃ ids,
    fetchTopStories (Ok items) limit = Returns (Ok ids) ∧
    ids = take (Z.to_nat (limit `min` Z.of_nat (length items))) items ∧
    Z.of_nat (length ids) = limit `min` Z.of_nat (length items) ∧
    (Z.of_nat (length items) < limit → ids = items) ∧
    Z.of_nat (length ids) ≤ limit.
Proof.
  intros Hl. unfold fetchTopStories.
  set (m := if bool_decide (Z.of_nat (length items) < limit)
            then Z.of_nat (length items) else limit).
  assert (Hm : m = limit `min` Z.of_nat (length items))
    by (subst m; case_bool_decide; lia).
  rewrite bool_decide_eq_false_2 by lia.
  eexists. split; [done|]. rewrite Hm.
  split_and!; [done| | |].
  - rewrite length_take. lia.
  - intros Hlt. apply take_ge. lia.
  - rewrite length_take. lia.
Qed.

Lemma fetchTopStories_truncates_witness :
  ∃ ids,
    fetchTopStories (Ok [11; 12; 13; 14]) 2 = Returns (Ok ids) ∧
    ids = take (Z.to_nat (2 `min` Z.of_nat (length [11; 12; 13; 14])))
               [11; 12; 13; 14] ∧
    Z.of_nat (length ids) = 2 `min` Z.of_nat (length [11; 12; 13; 14]) ∧
    (Z.of_nat (length [11; 12; 13; 14]) < 2 → ids = [11; 12; 13; 14]) ∧
    Z.of_nat (length ids) ≤ 2.
Proof. apply (fetchTopStories_truncates [11; 12; 13; 14] 2). lia. Defined.

Lemma fetchTopStories_front ids :
  fetchTopStories (Ok ids) frontPageNumArticles =
    Returns (Ok (take (Z.to_nat frontPageNumArticles) ids)).
Proof.
  unfold fetchTopStories, frontPageNumArticles. cbv zeta.
  destruct (bool_decide (Z.of_nat (length ids) < 30)) eqn:Hlen.
  - apply bool_decide_eq_true in Hlen.
    rewrite bool_decide_eq_false_2 by lia.
    rewrite Nat2Z.id. do 2 f_equal. rewrite !take_ge; [done|lia|lia].
  - by rewrite bool_decide_eq_false_2 by lia.
Qed.

(** ** The reconciler *)

Lemma wrap64_id z : - 2 ^ 63 ≤ z < 2 ^ 63 → wrap64 z = z.
Proof.
  intros Hz. unfold wrap64. rewrite Z.mod_small; lia.
Qed.

(** For a second count that [time.Unix] has a time for, the comparison of
    the code is the comparison of [now - Added] with eight hours. *)
Lemma olderThanEightHrs_spec now added :
  unixRepresentable added →
  olderThanEightHrs now added = true ↔
  eightHrs * nanosPerSecond < now - added * nanosPerSecond.
Proof.
  unfold unixRepresentable, unixToInternal. intros Hr.
  unfold olderThanEightHrs, Since, timeUnix.
  rewrite wrap64_id by (unfold unixToInternal; lia).
  unfold unixSeconds, unixToInternal, minDuration, maxDuration, eightHrs,
    nanosPerSecond.
  rewrite bool_decide_eq_true.
  pose proof (Z.div_mod now 1000000000). lia.
Qed.

Lemma fileHasID_pointers id fs :
  fileHasID id (pointers fs) =
    Returns (existsb (λ f, bool_decide (id = ID f)) fs).
Proof.
  induction fs as [|f fs IH]; [done|]. cbn [pointers fmap list_fmap fileHasID existsb].
  case_bool_decide; [done|]. apply IH.
Qed.

Lemma fileHasID_member id fileItems f :
  Some f ∈ fileItems → ID f = id → fileHasID id fileItems ≠ Returns false.
Proof.
  intros Hin Hid. induction fileItems as [|[x|] rest IH]; simpl.
  - by apply elem_of_nil in Hin.
  - case_bool_decide as Hx; [done|].
    apply elem_of_cons in Hin as [Heq|Hin]; [|by apply IH].
    by simplify_eq.
  - done.
Qed.

Lemma fileHasID_true id fileItems :
  fileHasID id fileItems = Returns true →
  ∃ f, Some f ∈ fileItems ∧ ID f = id.
Proof.
  induction fileItems as [|[x|] rest IH]; simpl; [done| |done].
  case_bool_decide as Hx.
  - intros _. exists x. split; [by left|done].
  - intros (f & Hin & Hid)%IH. exists f. split; [by right|done].
Qed.

(** With a file without nil, the switch returns, and returns true exactly
    for an item found in the list of its own source. *)
Lemma stillAtTop_pointers topItems fs id it :
  ∃ atTop,
    stillAtTop topItems (pointers fs) id it = Returns atTop ∧
    (atTop = true ↔
     (From it = itemFromFile ∧ id ∈ map ID fs) ∨
     (From it ≠ itemFromFile ∧ id ∈ topItems)).
Proof.
  unfold stillAtTop. case_bool_decide as HF.
  - rewrite fileHasID_pointers. eexists. split; [done|].
    rewrite existsb_exists. split.
    + intros (f & Hin & Heq). left. split; [done|].
      apply bool_decide_eq_true in Heq. subst id.
      apply list_elem_of_In, in_map, Hin.
    + intros [[_ Hin]|[? _]]; [|done].
      apply list_elem_of_In, in_map_iff in Hin as (f & <- & Hin).
      exists f. split; [done|]. by apply bool_decide_eq_true.
  - eexists. split; [done|]. rewrite existsb_exists. split.
    + intros (tid & Hin & Heq). right. split; [done|].
      apply bool_decide_eq_true in Heq. subst tid. by apply list_elem_of_In.
    + intros [[? _]|[_ Hin]]; [done|].
      exists id. split; [by apply list_elem_of_In|]. by apply bool_decide_eq_true.
Qed.

(** An item found in the list of its own source is never reported as gone
    from the top; the search may panic before it finds it. *)
Lemma stillAtTop_own_source topItems fileItems id it :
  (From it = itemFromFile ∧ ∃ f, Some f ∈ fileItems ∧ ID f = id) ∨
  (From it ≠ itemFromFile ∧ id ∈ topItems) →
  stillAtTop topItems fileItems id it ≠ Returns false.
Proof.
  unfold stillAtTop. intros [[HF (f & Hin & Hid)]|[HF Hin]].
  - rewrite bool_decide_eq_true_2 by done. by eapply fileHasID_member.
  - rewrite bool_decide_eq_false_2 by done. intros [= H].
    apply not_true_iff_false in H. apply H, existsb_exists.
    exists id. split; [by apply list_elem_of_In|]. by apply bool_decide_eq_true.
Qed.

Lemma remove_lookup_ne id k lq :
  k ≠ id → store (LimitQueue.remove id lq) !! k = store lq !! k.
Proof. intros. simpl. by rewrite lookup_delete_ne. Qed.

Lemma remove_keys_ne id k lq :
  k ≠ id → k ∈ keys (LimitQueue.remove id lq) ↔ k ∈ keys lq.
Proof. intros. simpl. rewrite list_elem_of_filter. tauto. Qed.

Section Sweep.
Variables (ctxErr : nat → bool) (clock : nat → Z).
Variables (topItems : list Z) (fileItems : list (option item)).

Local Abbreviation sweep' := (sweep ctxErr clock topItems fileItems).

(** One iteration of the loop, with projections for the rest of the run. *)
Lemma sweep_cons n id0 rest lq :
  sweep' n (id0 :: rest) lq =
    match store lq !! id0 with
    | None => sweep' n rest lq
    | Some it0 =>
        if ctxErr n then (lq, [], Returns tt)
        else
          match stillAtTop topItems fileItems id0 it0 with
          | Panics m => (lq, [], Panics m)
          | Returns atTop =>
              if negb atTop && olderThanEightHrs (clock n) (Added it0)
              then
                ((sweep' (S n) rest (LimitQueue.remove id0 lq)).1.1,
                 Send (mkChange changeRemove it0) :: LqRemove id0 ::
                   (sweep' (S n) rest (LimitQueue.remove id0 lq)).1.2,
                 (sweep' (S n) rest (LimitQueue.remove id0 lq)).2)
              else sweep' (S n) rest lq
          end
    end.
Proof.
  cbn [sweep]. destruct (store lq !! id0) as [it0|]; [|done].
  destruct (ctxErr n); [done|].
  destruct (stillAtTop topItems fileItems id0 it0) as [atTop|]; [|done].
  destruct (negb atTop && olderThanEightHrs (clock n) (Added it0)); [|done].
  by destruct (sweep' (S n) rest (LimitQueue.remove id0 lq)) as [[? ?] ?].
Qed.

(** An entry that is not visited, or that the switch does not report as gone
    from the top, survives the sweep, however the sweep ends. *)
Lemma sweep_keeps order : ∀ n lq id,
  id ∉ order ∨
    (∃ it, store lq !! id = Some it ∧
           stillAtTop topItems fileItems id it ≠ Returns false) →
  store (sweep' n order lq).1.1 !! id = store lq !! id ∧
  (LqRemove id ∉ (sweep' n order lq).1.2) ∧
  (id ∈ keys (sweep' n order lq).1.1 ↔ id ∈ keys lq).
Proof.
  induction order as [|id0 rest IH]; intros n lq id Hsafe.
  { simpl. split_and!; [done|apply not_elem_of_nil|done]. }
  assert (Hrest : ∀ lq', store lq' !! id = store lq !! id →
            id ∉ rest ∨ (∃ it, store lq' !! id = Some it ∧
                               stillAtTop topItems fileItems id it ≠ Returns false)).
  { intros lq' Heq. destruct Hsafe as [Hno|Hin].
    - left. by apply not_elem_of_cons in Hno as [_ ?].
    - right. by rewrite Heq. }
  rewrite sweep_cons.
  destruct (store lq !! id0) as [it0|] eqn:E0; [|by apply IH, Hrest].
  destruct (ctxErr n).
  { simpl. split_and!; [done|apply not_elem_of_nil|done]. }
  destruct (stillAtTop topItems fileItems id0 it0) as [atTop|m] eqn:Etop.
  2:{ simpl. split_and!; [done|apply not_elem_of_nil|done]. }
  destruct (negb atTop && olderThanEightHrs (clock n) (Added it0)) eqn:Ev;
    [|by apply IH, Hrest].
  assert (Hne : id ≠ id0).
  { intros ->. destruct Hsafe as [Hno|(it & Hit & Htop)].
    - apply Hno. by left.
    - rewrite E0 in Hit. simplify_eq. destruct atTop; [done|]. by rewrite Etop in Htop. }
  destruct (IH (S n) (LimitQueue.remove id0 lq) id) as (Hs & Ha & Hk).
  { apply Hrest. by apply remove_lookup_ne. }
  cbn [fst snd]. split_and!.
  - by rewrite Hs, remove_lookup_ne.
  - rewrite !not_elem_of_cons. split_and!; [done|congruence|done].
  - by rewrite Hk, remove_keys_ne.
Qed.
End Sweep.

Section SweepFile.
Variables (ctxErr : nat → bool) (clock : nat → Z).
Variables (topItems : list Z) (fs : list item).

Local Abbreviation sweepf := (sweep ctxErr clock topItems (pointers fs)).

(** Without a nil element in the file the sweep does not panic. *)
Lemma sweep_pointers_ending order : ∀ n lq, (sweepf n order lq).2 = Returns tt.
Proof.
  induction order as [|id0 rest IH]; intros n lq; [done|].
  rewrite sweep_cons.
  destruct (store lq !! id0) as [it0|]; [|apply IH].
  destruct (ctxErr n); [done|].
  destruct (stillAtTop_pointers topItems fs id0 it0) as (atTop & -> & _).
  destruct (negb atTop && olderThanEightHrs (clock n) (Added it0)); apply IH.
Qed.

(** The decision of the loop body for the entry it reaches at iteration
    [n0 + k]. *)
Lemma sweep_reached order : ∀ n0 lq k id it atTop,
  NoDup order →
  (∀ i, i ∈ order → is_Some (store lq !! i)) →
  order !! k = Some id →
  store lq !! id = Some it →
  (∀ j, (n0 ≤ j ≤ n0 + k)%nat → ctxErr j = false) →
  stillAtTop topItems (pointers fs) id it = Returns atTop →
  if negb atTop && olderThanEightHrs (clock (n0 + k)%nat) (Added it)
  then
    store (sweepf n0 order lq).1.1 !! id = None ∧
    (id ∉ keys (sweepf n0 order lq).1.1) ∧
    ∃ pre post,
      (sweepf n0 order lq).1.2 =
        pre ++ [Send (mkChange changeRemove it); LqRemove id] ++ post
  else
    store (sweepf n0 order lq).1.1 !! id = Some it ∧
    (LqRemove id ∉ (sweepf n0 order lq).1.2) ∧
    (id ∈ keys (sweepf n0 order lq).1.1 ↔ id ∈ keys lq).
Proof.
  induction order as [|id0 rest IH];
    intros n0 lq k id it atTop Hnd Hall Hk Hit Hctx Htop; [done|].
  apply NoDup_cons in Hnd as [Hno Hnd].
  destruct (Hall id0) as [it0 E0]; [by left|].
  rewrite sweep_cons, E0, (Hctx n0) by lia.
  destruct k as [|k]; simpl in Hk.
  - simplify_eq. rewrite Nat.add_0_r, Htop.
    destruct (negb atTop && olderThanEightHrs (clock n0) (Added it)) eqn:Ev.
    + destruct (sweep_keeps ctxErr clock topItems (pointers fs) rest (S n0)
                  (LimitQueue.remove id lq) id) as (Hs & _ & Hkeys); [by left|].
      cbn [fst snd]. split_and!.
      * rewrite Hs. simpl. by rewrite lookup_delete_eq.
      * rewrite Hkeys. simpl. rewrite list_elem_of_filter. tauto.
      * by eexists [], _.
    + destruct (sweep_keeps ctxErr clock topItems (pointers fs) rest (S n0) lq id)
        as (Hs & Ha & Hkeys); [by left|].
      by rewrite Hs.
  - assert (Hne : id ≠ id0).
    { intros ->. apply Hno. by eapply list_elem_of_lookup_2. }
    replace (n0 + S k)%nat with (S n0 + k)%nat by lia.
    destruct (stillAtTop_pointers topItems fs id0 it0) as (atTop0 & -> & _).
    destruct (negb atTop0 && olderThanEightHrs (clock n0) (Added it0)) eqn:Ev0.
    + pose proof (IH (S n0) (LimitQueue.remove id0 lq) k id it atTop Hnd) as Hstep.
      rewrite remove_lookup_ne in Hstep by done.
      assert (Hall' : ∀ i, i ∈ rest →
                is_Some (store (LimitQueue.remove id0 lq) !! i)).
      { intros i Hi. rewrite remove_lookup_ne; [apply Hall; by right|].
        intros ->. done. }
      specialize (Hstep Hall' Hk Hit).
      assert (Hctx' : ∀ j, (S n0 ≤ j ≤ S n0 + k)%nat → ctxErr j = false).
      { intros j Hj. apply Hctx. lia. }
      specialize (Hstep Hctx' Htop). cbn [fst snd].
      destruct (negb atTop && olderThanEightHrs (clock (S n0 + k)) (Added it)).
      * destruct Hstep as (H1 & H2 & pre & post & ->).
        split_and!; [done|done|].
        by exists (Send (mkChange changeRemove it0) :: LqRemove id0 :: pre), post.
      * destruct Hstep as (H1 & H2 & H3).
        split_and!; [done| |].
        -- rewrite !not_elem_of_cons. split_and!; [done|congruence|done].
        -- by rewrite H3, remove_keys_ne.
    + apply IH; [done| |done|done| |done].
      * intros i Hi. apply Hall. by right.
      * intros j Hj. apply Hctx. lia.
Qed.
End SweepFile.

Lemma storyRemover_fetched remote_ids fileItems ctxErr clock order lq :
  storyRemover (Ok remote_ids) (Ok fileItems) ctxErr clock order lq =
    let run := sweep ctxErr clock (take (Z.to_nat frontPageNumArticles) remote_ids)
                     fileItems 0 order lq in
    (run.1.1, run.1.2,
     match run.2 with
     | Returns _ => Returns None
     | Panics m => Panics m
     end).
Proof.
  unfold storyRemover. rewrite fetchTopStories_front. simpl.
  by destruct (sweep _ _ _ _ _ _ _) as [[? ?] ?].
Qed.

(** C6, as stated, fails at the largest timestamps: [time.Unix] adds
    [unixToInternal] to the second count in an [int64], which wraps for
    [Added] from [2^63 - 62135596800] on; the time then lies far in the past
    and the item is evicted, although [now - Added] is negative. *)
Lemma staleness_wraps_counterexample :
  let it := mkItem 5 "" (2 ^ 63 - 1) "" "hn" "" in
  let lq := mkLimitQueue 300 [5] {[5 := it]} in
  let now := 1700000000 * nanosPerSecond in
  storyRemover (Ok []) (Ok []) (λ _, false) (λ _, now) [5] lq =
    (mkLimitQueue 300 [] ∅,
     [Send (mkChange changeRemove it); LqRemove 5], Returns None) ∧
  ¬ (eightHrs * nanosPerSecond < now - Added it * nanosPerSecond).
Proof. split; [reflexivity|]. by vm_compute. Qed.

(** C6, amended.  Take a pass of [storyRemover] whose two fetches succeed, with
    no nil element in the file, and an entry of the tracker that the loop
    reaches, at iteration [n], before any cancellation, and whose [Added] is a
    second count [time.Unix] has a time for.  The pass removes the entry
    exactly when its ID is not in the list of its source (the file for an
    item tagged [file], the first 30 IDs of the ranking for any other) and
    [now - Added] exceeds eight hours, [now] being the clock of that
    iteration.  When it removes it, the [removed] event with the item is sent
    and the call of [remove] follows it at once; when it does not, the entry
    stays and [remove] is not called for it.  So an entry that is not in its
    list and was added nine hours ago goes, and one added one hour ago
    stays. *)
Theorem reconciliation_staleness
    (remote_ids : list Z) (fs : list item)
    (ctxErr : nat → bool) (clock : nat → Z)
    (order : list Z) (lq : limitQueue) (n : nat) (id : Z) (it : item) :
  iterationOrder order (store lq) →
  order !! n = Some id →
  store lq !! id = Some it →
  (∀ j, (j ≤ n)%nat → ctxErr j = false) →
  unixRepresentable (Added it) →
  let canonical :=
    (From it = itemFromFile ∧ id ∈ map ID fs) ∨
    (From it ≠ itemFromFile ∧
     id ∈ take (Z.to_nat frontPageNumArticles) remote_ids) in
  let now := clock n in
  let stale := eightHrs * nanosPerSecond < now - Added it * nanosPerSecond in
  ∃ lq' acts,
    storyRemover (Ok remote_ids) (Ok (pointers fs)) ctxErr clock order lq =
      (lq', acts, Returns None) ∧
    (store lq' !! id = None ↔ ¬ canonical ∧ stale) ∧
    (¬ canonical ∧ stale →
       (id ∉ keys lq') ∧
       ∃ pre post,
         acts = pre ++ [Send (mkChange changeRemove it); LqRemove id] ++ post) ∧
    (¬ (¬ canonical ∧ stale) →
       store lq' !! id = Some it ∧ (LqRemove id ∉ acts) ∧
       (id ∈ keys lq' ↔ id ∈ keys lq)) ∧
    (¬ canonical → Added it = unixSeconds now - 9 * 60 * 60 →
       store lq' !! id = None) ∧
    (Added it = unixSeconds now - 1 * 60 * 60 → store lq' !! id = Some it).
Proof.
  intros [Hnd Hdom] Hn Hit Hctx Hrep canonical now stale.
  rewrite storyRemover_fetched. cbv zeta.
  set (topItems := take (Z.to_nat frontPageNumArticles) remote_ids) in *.
  rewrite sweep_pointers_ending.
  do 2 eexists. split; [done|].
  destruct (stillAtTop_pointers topItems fs id it) as (atTop & Htop & Hcan).
  pose proof (sweep_reached ctxErr clock topItems fs order 0 lq n id it atTop
                Hnd (λ i Hi, proj1 (Hdom i) Hi) Hn Hit) as Hr.
  simpl in Hr. fold now in Hr.
  specialize (Hr (λ j Hj, Hctx j (proj2 Hj)) Htop).
  assert (Hev : negb atTop && olderThanEightHrs now (Added it) = true ↔
                ¬ canonical ∧ stale).
  { rewrite andb_true_iff, negb_true_iff, olderThanEightHrs_spec by done.
    fold canonical in Hcan. destruct atTop; intuition congruence. }
  assert (H9 : Added it = unixSeconds now - 9 * 60 * 60 → stale).
  { intros E. subst stale. rewrite E. unfold unixSeconds, eightHrs, nanosPerSecond.
    pose proof (Z.mod_pos_bound now 1000000000).
    pose proof (Z.div_mod now 1000000000). lia. }
  assert (H1 : Added it = unixSeconds now - 1 * 60 * 60 → ¬ stale).
  { intros E. subst stale. rewrite E. unfold unixSeconds, eightHrs, nanosPerSecond.
    pose proof (Z.mod_pos_bound now 1000000000).
    pose proof (Z.div_mod now 1000000000). lia. }
  destruct (negb atTop && olderThanEightHrs now (Added it)).
  - destruct Hr as (Hs & Hk & Hacts). destruct Hev as [Hev _].
    specialize (Hev eq_refl). split_and!.
    + split; [by intros _|by intros _].
    + by intros _.
    + intros Hnot. by destruct Hnot.
    + by intros _ _.
    + intros E. destruct (H1 E). apply Hev.
  - destruct Hr as (Hs & Ha & Hk).
    assert (Hnev : ¬ (¬ canonical ∧ stale)).
    { intros H. apply Hev in H. discriminate H. }
    split_and!.
    + rewrite Hs. split; [discriminate|by intros H].
    + by intros H.
    + by intros _.
    + intros Hc E. destruct Hnev. split; [done|by apply H9].
    + by intros _.
Qed.

Lemma reconciliation_staleness_witness :
  let hour := 60 * 60 * nanosPerSecond in
  let old := mkItem 5 "" 0 "" "hn" "" in
  let fresh := mkItem 6 "" (8 * 60 * 60) "" "hn" "" in
  let lq := mkLimitQueue 300 [5; 6] (<[6 := fresh]> {[5 := old]}) in
  let run := storyRemover (Ok [1; 2]) (Ok (pointers [])) (λ _, false)
                          (λ _, 9 * hour) [5; 6] lq in
  run.2 = Returns None ∧
  store run.1.1 !! 5 = None ∧
  store run.1.1 !! 6 = Some fresh ∧
  ∃ pre post,
    run.1.2 = pre ++ [Send (mkChange changeRemove old); LqRemove 5] ++ post.
Proof.
  intros hour old fresh lq run.
  assert (Horder : iterationOrder [5; 6] (store lq)).
  { split; [apply (bool_decide_unpack _); by vm_compute|].
    intros k. subst lq. simpl. split.
    - intros [->|[->|?%elem_of_nil]%elem_of_cons]%elem_of_cons; [by eexists..|done].
    - intros [x Hx]. destruct (decide (k = 6)) as [->|]; [by right; left|].
      rewrite lookup_insert_ne in Hx by done.
      destruct (decide (k = 5)) as [->|]; [by left|].
      by rewrite lookup_singleton_ne in Hx. }
  assert (Hrep : ∀ a, 0 ≤ a ≤ 8 * 60 * 60 → unixRepresentable a).
  { intros a Ha. unfold unixRepresentable, unixToInternal. lia. }
  destruct (reconciliation_staleness [1; 2] [] (λ _, false) (λ _, 9 * hour)
              [5; 6] lq 0 5 old Horder eq_refl eq_refl (λ _ _, eq_refl)
              (Hrep 0 ltac:(lia)))
    as (lq5 & acts5 & Hrun5 & _ & Hevict & _ & Hgone & _).
  destruct (reconciliation_staleness [1; 2] [] (λ _, false) (λ _, 9 * hour)
              [5; 6] lq 1 6 fresh Horder eq_refl eq_refl (λ _ _, eq_refl)
              (Hrep (8 * 60 * 60) ltac:(lia)))
    as (lq6 & acts6 & Hrun6 & _ & _ & _ & _ & Hstay).
  assert (Hnot : ¬ ((From old = itemFromFile ∧ 5 ∈ map ID []) ∨
                    (From old ≠ itemFromFile ∧
                     5 ∈ take (Z.to_nat frontPageNumArticles) [1; 2]))).
  { intros [[H _]|[_ H]]; [discriminate H|].
    apply (bool_decide_pack _) in H. by vm_compute in H. }
  fold run in Hrun5, Hrun6. rewrite Hrun5 in Hrun6 |- *. simplify_eq.
  cbn [fst snd]. split_and!.
  - done.
  - apply Hgone; [done|reflexivity].
  - apply Hstay. reflexivity.
  - apply Hevict. split; [done|]. by vm_compute.
Defined.

Lemma no_nil_pointers (l : list (option item)) :
  None ∉ l → ∃ fs, l = pointers fs.
Proof.
  induction l as [|[x|] l IH]; intros Hnil.
  - by exists [].
  - destruct IH as [fs ->]; [intros H; apply Hnil; by right|]. by exists (x :: fs).
  - destruct Hnil. by left.
Qed.

(** C7, as stated, fails: membership is tested in the list of the item's own
    source only.  An item tagged [file] whose ID is in the remote ranking but
    not in the file is in the union of the two, and is removed once it is
    older than eight hours. *)
Lemma canonical_membership_counterexample :
  let it := mkItem 7 "" 0 "" "file" "" in
  let lq := mkLimitQueue 300 [7] {[7 := it]} in
  let remote_ids := [7] in
  let fileItems : list item := [] in
  7 ∈ remote_ids ++ map ID fileItems ∧
  storyRemover (Ok remote_ids) (Ok (pointers fileItems)) (λ _, false)
               (λ _, 10 * 60 * 60 * nanosPerSecond) [7] lq =
    (mkLimitQueue 300 [] ∅,
     [Send (mkChange changeRemove it); LqRemove 7], Returns None).
Proof. split; [by left|reflexivity]. Qed.

(** C7, amended.  An entry whose ID is in the list of its own source (the
    file for an item tagged [file], the first 30 IDs of the remote ranking
    for any other) is never removed by a pass whose fetches succeed, whatever
    its age, the iteration order and the cancellation; and without a nil
    element in the file the pass returns no error. *)
Theorem canonical_in_own_source_never_evicted
    (remote_ids : list Z) (fileItems : list (option item))
    (ctxErr : nat → bool) (clock : nat → Z)
    (order : list Z) (lq : limitQueue) (id : Z) (it : item) :
  store lq !! id = Some it →
  (From it = itemFromFile ∧ ∃ f, Some f ∈ fileItems ∧ ID f = id) ∨
  (From it ≠ itemFromFile ∧ id ∈ take (Z.to_nat frontPageNumArticles) remote_ids) →
  ∃ lq' acts ending,
    storyRemover (Ok remote_ids) (Ok fileItems) ctxErr clock order lq =
      (lq', acts, ending) ∧
    store lq' !! id = Some it ∧
    (LqRemove id ∉ acts) ∧
    (id ∈ keys lq' ↔ id ∈ keys lq) ∧
    (None ∉ fileItems → ending = Returns None).
Proof.
  intros Hit Hcan. rewrite storyRemover_fetched. cbv zeta.
  do 3 eexists. split; [done|].
  destruct (sweep_keeps ctxErr clock
              (take (Z.to_nat frontPageNumArticles) remote_ids) fileItems
              order 0 lq id) as (Hs & Ha & Hk).
  { right. exists it. split; [done|]. by apply stillAtTop_own_source. }
  split_and!; [by rewrite Hs|done|done|].
  intros [fs ->]%no_nil_pointers. by rewrite sweep_pointers_ending.
Qed.

Lemma canonical_in_own_source_never_evicted_witness :
  let it := mkItem 7 "" 0 "" "hn" "" in
  let lq := mkLimitQueue 300 [7] {[7 := it]} in
  ∃ lq' acts ending,
    storyRemover (Ok [7]) (Ok []) (λ _, false)
                 (λ _, 10 * 60 * 60 * nanosPerSecond) [7] lq =
      (lq', acts, ending) ∧
    store lq' !! 7 = Some it ∧
    (LqRemove 7 ∉ acts) ∧
    (7 ∈ keys lq' ↔ 7 ∈ keys lq) ∧
    (None ∉ ([] : list (option item)) → ending = Returns None).
Proof.
  intros it lq.
  apply (canonical_in_own_source_never_evicted [7] [] (λ _, false)
           (λ _, 10 * 60 * 60 * nanosPerSecond) [7] lq 7 it).
  - reflexivity.
  - right. split; [discriminate|]. by left.
Defined.
(** * Further properties *)

Lemma setDomain_fields it :
  ID (setDomain it).1 = ID it ∧ From (setDomain it).1 = From it ∧
  URL (setDomain it).1 = URL it ∧ Added (setDomain it).1 = Added it ∧
  DiscussLink (setDomain it).1 = DiscussLink it.
Proof.
  unfold setDomain. case_bool_decide; [|done].
  by destruct (urlToDomain (URL it)).
Qed.

Lemma setDiscussLink_idem it : setDiscussLink (setDiscussLink it) = setDiscussLink it.
Proof.
  unfold setDiscussLink. destruct it as [i u a d f l]; cbn.
  repeat (case_bool_decide; cbn); done.
Qed.

Lemma setDomain_setDiscussLink it :
  (setDomain (setDiscussLink it)).1 = setDiscussLink (setDomain it).1.
Proof.
  unfold setDomain, setDiscussLink.
  destruct it as [i u a d f l]; simpl.
  repeat (case_bool_decide; simpl); try done;
    destruct (urlToDomain u); simpl; try done;
    repeat (case_bool_decide; simpl); done.
Qed.

(** X8.  An item that [storyLister] normalised at a clock reading outside the
    first second of the epoch is left unchanged when it is normalised again at
    any other reading: [Added], [Domain] and [DiscussLink] are set once. *)
Theorem normalize_again (now1 now2 : Z) (it : item) :
  unixSeconds now1 ≠ 0 →
  normalize now2 (normalize now1 it) = normalize now1 it.
Proof.
  intros Hnow.
  assert (HA : Added (normalize now1 it) ≠ 0).
  { unfold normalize, setDiscussLink.
    assert (Added (setDomain (setAdded now1 it)).1 ≠ 0).
    { rewrite (proj1 (proj2 (proj2 (proj2 (setDomain_fields _))))).
      unfold setAdded. case_bool_decide; done. }
    by case_bool_decide. }
  unfold normalize at 1.
  assert (setAdded now2 (normalize now1 it) = normalize now1 it) as ->.
  { unfold setAdded. by rewrite bool_decide_eq_false_2. }
  unfold normalize. rewrite setDomain_setDiscussLink, setDomain_idem.
  apply setDiscussLink_idem.
Qed.

Lemma normalize_again_witness :
  let it := mkItem 9 "https://news.example.org/a" 0 "" "" "" in
  normalize 5000000000 (normalize 3000000000 it) = normalize 3000000000 it.
Proof. intros it. apply (normalize_again 3000000000 5000000000 it). by vm_compute. Defined.

Lemma storyListerItem_stream lq_add now it lq :
  changeStream (storyListerItem lq_add now it lq).2 =
    iterationEvents (lq_add (normalize now it) lq).1 (normalize now it).
Proof.
  rewrite storyListerItem_eq. cbn [snd].
  rewrite changeStream_app, changeStream_logs by apply setDomain_logs.
  unfold iterationEvents. by destruct (lq_add (normalize now it) lq).1.
Qed.

Lemma storyLister_cons lq_add now it rest lq :
  storyLister lq_add ((now, it) :: rest) lq =
    ((storyLister lq_add rest (storyListerItem lq_add now it lq).1).1,
     (storyListerItem lq_add now it lq).2 ++
     (storyLister lq_add rest (storyListerItem lq_add now it lq).1).2).
Proof.
  cbn [storyLister]. destruct (storyListerItem lq_add now it lq) as [lq1 acts1].
  cbn [fst snd]. by destruct (storyLister lq_add rest lq1).
Qed.

(** X7.  The stream a run of [storyLister] sends is, item by item in arrival
    order, an optional [removed] event directly followed by the [added] event
    of the item; so the [added] events are exactly the normalised items in
    order, and [n] items give between [n] and [2n] events.  This holds
    whatever [add] does. *)
Theorem storyLister_stream
    (lq_add : item → limitQueue → option item * limitQueue)
    (incoming : list (Z * item)) (lq : limitQueue) :
  let stream := changeStream (storyLister lq_add incoming lq).2 in
  (∃ evicted : list (option item),
     length evicted = length incoming ∧
     stream = concat (zip_with (λ ev p, iterationEvents ev (normalize p.1 p.2))
                               evicted incoming)) ∧
  filter (λ c, Action c = changeAdd) stream =
    map (λ p, mkChange changeAdd (normalize p.1 p.2)) incoming ∧
  (length incoming ≤ length stream ≤ 2 * length incoming)%nat.
Proof.
  revert lq. induction incoming as [|[now it] rest IH]; intros lq.
  { simpl. split_and!; [by exists []|done|done|done]. }
  cbv zeta. rewrite storyLister_cons. cbn [snd].
  rewrite changeStream_app, storyListerItem_stream.
  destruct (IH (storyListerItem lq_add now it lq).1) as ((evs & Hlen & Hs) & Hf & Hn).
  cbv zeta in Hs, Hf, Hn.
  set (ev := (lq_add (normalize now it) lq).1).
  split_and!.
  - exists (ev :: evs). split; [simpl; by rewrite Hlen|].
    simpl. by rewrite Hs.
  - rewrite filter_app, Hf. unfold iterationEvents. by destruct ev.
  - rewrite length_app. unfold iterationEvents. destruct ev; simpl; lia.
  - rewrite length_app. unfold iterationEvents. destruct ev; simpl; lia.
Qed.

(** X3.  With a negative [limit] and a decoded list, [fetchTopStories] panics
    on [items[:limit]]: the length is never below a negative [limit], so the
    guard leaves it as it is. *)
Theorem fetchTopStories_negative_limit_panics (items : list Z) (limit : Z) :
  limit < 0 →
  fetchTopStories (Ok items) limit = Panics "slice bounds out of range".
Proof.
  intros Hl. unfold fetchTopStories. cbv zeta.
  rewrite (bool_decide_eq_false_2 (Z.of_nat (length items) < limit)) by lia.
  by rewrite bool_decide_eq_true_2.
Qed.

Lemma fetchTopStories_negative_limit_panics_witness :
  fetchTopStories (Ok [1; 2]) (-1) = Panics "slice bounds out of range".
Proof. apply (fetchTopStories_negative_limit_panics [1; 2] (-1)). lia. Defined.

(** The loop over a file whose first nil element, if there is one, comes
    right after [front]. *)
Lemma sendFileItems_front front tail :
  tail = [] ∨ (∃ t, tail = None :: t) →
  sendFileItems (pointers front ++ tail) =
    (map (λ it, Incoming (tagFileItem it)) front,
     match tail with
     | [] => Returns tt
     | _ => Panics nilDereference
     end).
Proof.
  intros Htail. induction front as [|it front IH].
  - destruct Htail as [->|[t ->]]; done.
  - cbn [pointers fmap list_fmap app sendFileItems]. fold (pointers front).
    by rewrite IH.
Qed.

(** X4.  [serverInputsToUserFetcher] sends the items of the file in the order
    of the file, with [ID], [URL] and [Added] untouched and never with an
    empty [From]: all of them, returning no error, when the file has no nil
    element; else those before the first nil element, where it panics. *)
Theorem file_items_sent_tagged (front : list item) (tail : list (option item)) :
  tail = [] ∨ (∃ t, tail = None :: t) →
  ∃ sent,
    serverInputsToUserFetcher (Ok (pointers front ++ tail)) =
      (map Incoming sent,
       match tail with
       | [] => Returns None
       | _ => Panics nilDereference
       end) ∧
    length sent = length front ∧
    map ID sent = map ID front ∧
    map URL sent = map URL front ∧
    map Added sent = map Added front ∧
    Forall (λ it, From it ≠ EmptyString) sent.
Proof.
  intros Htail. exists (map tagFileItem front).
  split_and!.
  - unfold serverInputsToUserFetcher. simpl.
    rewrite sendFileItems_front by done. rewrite map_map.
    by destruct tail.
  - by rewrite length_map.
  - rewrite map_map. apply map_ext. intros it. unfold tagFileItem.
    by case_bool_decide.
  - rewrite map_map. apply map_ext. intros it. unfold tagFileItem.
    by case_bool_decide.
  - rewrite map_map. apply map_ext. intros it. unfold tagFileItem.
    by case_bool_decide.
  - apply Forall_forall. intros it Hin.
    apply list_elem_of_In, in_map_iff in Hin as (x & <- & _).
    unfold tagFileItem. case_bool_decide; done.
Qed.

Lemma file_items_sent_tagged_witness :
  let a := mkItem 1 "https://a.example/1" 0 "" "" "" in
  let b := mkItem 2 "https://b.example/2" 7 "" "hn" "" in
  let c := mkItem 3 "https://c.example/3" 0 "" "" "" in
  ∃ sent,
    serverInputsToUserFetcher (Ok (pointers [a; b] ++ [None; Some c])) =
      (map Incoming sent, Panics nilDereference) ∧
    length sent = length [a; b] ∧
    map ID sent = map ID [a; b] ∧
    map URL sent = map URL [a; b] ∧
    map Added sent = map Added [a; b] ∧
    Forall (λ it, From it ≠ EmptyString) sent.
Proof.
  intros a b c. apply (file_items_sent_tagged [a; b] [None; Some c]).
  right. by eexists.
Defined.

Lemma normalize_file_item now it :
  From it = itemFromFile →
  From (normalize now it) = itemFromFile ∧
  DiscussLink (normalize now it) = DiscussLink it.
Proof.
  intros HF. unfold normalize, setDiscussLink.
  destruct (setDomain_fields (setAdded now it)) as (_ & HF' & _ & _ & HD).
  assert (From (setAdded now it) = From it ∧
          DiscussLink (setAdded now it) = DiscussLink it) as [Ha Hb]
    by (unfold setAdded; by case_bool_decide).
  rewrite bool_decide_eq_false_2 by (rewrite HF', Ha, HF; intros H; by apply H).
  split; congruence.
Qed.

(** X5.  An item of the file that has no [From], and no nil element before
    it, reaches [storyLister] tagged [file], and the normalisation there
    leaves its [DiscussLink] as the file had it. *)
Theorem untagged_file_item_gets_no_discuss_link
    (items : list (option item)) (i : nat) (it : item) (now : Z) :
  items !! i = Some (Some it) →
  (∀ j, (j < i)%nat → items !! j ≠ Some None) →
  From it = EmptyString →
  ∃ sent,
    (serverInputsToUserFetcher (Ok items)).1 !! i = Some (Incoming sent) ∧
    From (normalize now sent) = itemFromFile ∧
    DiscussLink (normalize now sent) = DiscussLink it.
Proof.
  intros Hi Hnil HF.
  rewrite serverInputsToUserFetcher_acts, (sendFileItems_lookup _ _ it) by done.
  unfold tagFileItem. rewrite bool_decide_eq_true_2 by done.
  eexists. split; [done|].
  by apply (normalize_file_item now (set_From itemFromFile it)).
Qed.

Lemma untagged_file_item_gets_no_discuss_link_witness :
  let it := mkItem 3 "https://example.org/post" 0 "" "" "" in
  ∃ sent,
    (serverInputsToUserFetcher (Ok [Some it])).1 !! 0%nat = Some (Incoming sent) ∧
    From (normalize 1000000000 sent) = itemFromFile ∧
    DiscussLink (normalize 1000000000 sent) = DiscussLink it.
Proof.
  intros it.
  apply (untagged_file_item_gets_no_discuss_link [Some it] 0 it 1000000000);
    [reflexivity|intros j Hj; lia|reflexivity].
Defined.

Lemma topStoriesLoop_shape appCtxErr fetchItem ids : ∀ n,
  ∃ k, (k ≤ length ids)%nat ∧
       (∀ j, (j < k)%nat → appCtxErr (n + j)%nat = false) ∧
       ((k < length ids)%nat → appCtxErr (n + k)%nat = true) ∧
       topStoriesLoop appCtxErr fetchItem n ids =
         map (fetchedAction fetchItem) (take k ids).
Proof.
  induction ids as [|id ids IH]; intros n.
  { exists 0%nat. simpl. split_and!; [lia|intros; lia|lia|done]. }
  simpl. destruct (appCtxErr n) eqn:Hc.
  - exists 0%nat. split_and!; [lia|intros; lia| |done].
    intros _. by rewrite Nat.add_0_r.
  - destruct (IH (S n)) as (k & Hk & Hrun & Hstop & Heq).
    exists (S k). split_and!.
    + simpl. lia.
    + intros [|j] Hj; [by rewrite Nat.add_0_r|].
      replace (n + S j)%nat with (S n + j)%nat by lia. apply Hrun. lia.
    + intros Hlt. replace (n + S k)%nat with (S n + k)%nat by lia.
      apply Hstop. simpl in Hlt. lia.
    + simpl. unfold fetchedAction at 1.
      destruct (fetchItem id); by rewrite Heq.
Qed.

(** X6.  With the list fetched, [topStoriesFetcher] for the front page works
    through the first [k] IDs of the list, [k] at most 30: it stops, without an
    error, at the first iteration that finds [appCtx] cancelled; for each ID
    before that it either sends the fetched item or logs the error of the
    fetch and goes on. *)
Theorem topStoriesFetcher_front
    (ids : list Z) (appCtxErr : nat → bool) (fetchItem : Z → result item) :
  ∃ k,
    (k ≤ length ids)%nat ∧ (k ≤ 30)%nat ∧
    (∀ j, (j < k)%nat → appCtxErr j = false) ∧
    ((k < length ids)%nat → (k < 30)%nat → appCtxErr k = true) ∧
    topStoriesFetcher (Ok ids) appCtxErr fetchItem frontPageNumArticles =
      Returns (map (fetchedAction fetchItem) (take k ids), None).
Proof.
  unfold topStoriesFetcher. rewrite fetchTopStories_front.
  destruct (topStoriesLoop_shape appCtxErr fetchItem
              (take (Z.to_nat frontPageNumArticles) ids) 0)
    as (k & Hk & Hrun & Hstop & ->).
  rewrite length_take in Hk, Hstop.
  change (Z.to_nat frontPageNumArticles) with 30%nat in *.
  exists k. split_and!; [lia|lia|done| |].
  - intros H1 H2. apply Hstop. lia.
  - rewrite take_take. by replace (k `min` 30)%nat with k by lia.
Qed.

Section SweepMore.
Variables (ctxErr : nat → bool) (clock : nat → Z).
Variables (topItems : list Z) (fileItems : list (option item)).

Local Abbreviation sweep' := (sweep ctxErr clock topItems fileItems).

Lemma sweep_shrinks order : ∀ n lq,
  limit (sweep' n order lq).1.1 = limit lq ∧
  store (sweep' n order lq).1.1 ⊆ store lq ∧
  keys (sweep' n order lq).1.1 `sublist_of` keys lq ∧
  size (store lq) =
    (size (store (sweep' n order lq).1.1) +
     length (changeStream (sweep' n order lq).1.2))%nat ∧
  ∀ c, c ∈ changeStream (sweep' n order lq).1.2 →
    Action c = changeRemove ∧
    ∃ id m, store lq !! id = Some (Item c) ∧
            stillAtTop topItems fileItems id (Item c) = Returns false ∧
            olderThanEightHrs (clock m) (Added (Item c)) = true.
Proof.
  induction order as [|id0 rest IH]; intros n lq.
  { simpl. split_and!; [done|done|done|lia|by intros c ?%elem_of_nil]. }
  rewrite sweep_cons.
  destruct (store lq !! id0) as [it0|] eqn:E0; [|apply IH].
  destruct (ctxErr n).
  { simpl. split_and!; [done|done|done|lia|by intros c ?%elem_of_nil]. }
  destruct (stillAtTop topItems fileItems id0 it0) as [atTop|msg] eqn:Etop.
  2:{ simpl. split_and!; [done|done|done|lia|by intros c ?%elem_of_nil]. }
  destruct (negb atTop && olderThanEightHrs (clock n) (Added it0)) eqn:Ev;
    [|apply IH].
  apply andb_true_iff in Ev as [Htop Hold]. apply negb_true_iff in Htop.
  subst atTop.
  destruct (IH (S n) (LimitQueue.remove id0 lq)) as (Hl & Hs & Hk & Hsz & Hev).
  destruct (sweep' (S n) rest (LimitQueue.remove id0 lq)) as [[lq' acts] ending].
  simpl in *. split_and!.
  - done.
  - etrans; [exact Hs|]. apply delete_subseteq.
  - etrans; [exact Hk|]. apply sublist_filter.
  - rewrite map_size_delete, E0 in Hsz.
    assert (size (store lq) ≠ 0%nat) by (apply map_size_ne_0_lookup; eauto).
    unfold changeStream in *. simpl. lia.
  - intros c [->|Hc]%elem_of_cons.
    + simpl. split; [done|]. by exists id0, n.
    + destruct (Hev c Hc) as (Ha & id & m & Hid & ? & ?).
      split; [done|]. exists id, m. split; [|done].
      by eapply lookup_delete_Some.
Qed.

Lemma sweep_fresh order : ∀ n lq,
  (∀ id it m, store lq !! id = Some it →
              olderThanEightHrs (clock m) (Added it) = false) →
  (sweep' n order lq).1 = (lq, []).
Proof.
  induction order as [|id0 rest IH]; intros n lq Hfresh; [done|].
  rewrite sweep_cons.
  destruct (store lq !! id0) as [it0|] eqn:E0; [|by apply IH].
  destruct (ctxErr n); [done|].
  destruct (stillAtTop topItems fileItems id0 it0) as [atTop|msg]; [|done].
  rewrite (Hfresh id0 it0 n E0), andb_false_r. by apply IH.
Qed.

Lemma sweep_cancelled order : ∀ n0 lq k id,
  NoDup order →
  (∀ i, i ∈ order → is_Some (store lq !! i)) →
  order !! k = Some id →
  (∃ j, (n0 ≤ j ≤ n0 + k)%nat ∧ ctxErr j = true) →
  store (sweep' n0 order lq).1.1 !! id = store lq !! id ∧
  (LqRemove id ∉ (sweep' n0 order lq).1.2) ∧
  (id ∈ keys (sweep' n0 order lq).1.1 ↔ id ∈ keys lq).
Proof.
  induction order as [|id0 rest IH]; intros n0 lq k id Hnd Hall Hk (j & Hj & Hc);
    [done|].
  apply NoDup_cons in Hnd as [Hno Hnd].
  destruct (Hall id0) as [it0 E0]; [by left|].
  rewrite sweep_cons, E0.
  destruct (ctxErr n0) eqn:Hc0.
  { simpl. split_and!; [done|apply not_elem_of_nil|done]. }
  destruct k as [|k]; simpl in Hk.
  { assert (j = n0) as -> by lia. congruence. }
  assert (Hne : id ≠ id0).
  { intros ->. apply Hno. by eapply list_elem_of_lookup_2. }
  assert (Hj' : ∃ j, (S n0 ≤ j ≤ S n0 + k)%nat ∧ ctxErr j = true).
  { exists j. split; [|done]. destruct (decide (j = n0)) as [->|]; [congruence|lia]. }
  destruct (stillAtTop topItems fileItems id0 it0) as [atTop|msg].
  2:{ simpl. split_and!; [done|apply not_elem_of_nil|done]. }
  destruct (negb atTop && olderThanEightHrs (clock n0) (Added it0)).
  - destruct (IH (S n0) (LimitQueue.remove id0 lq) k id Hnd) as (Hs & Ha & Hkeys);
      [|done|done|].
    { intros i Hi. rewrite remove_lookup_ne; [apply Hall; by right|].
      intros ->. done. }
    cbn [fst snd]. split_and!.
    + by rewrite Hs, remove_lookup_ne.
    + rewrite !not_elem_of_cons. split_and!; [done|congruence|done].
    + by rewrite Hkeys, remove_keys_ne.
  - apply (IH (S n0) lq k id); [done| |done|done].
    intros i Hi. apply Hall. by right.
Qed.

Lemma sweep_wf order : ∀ n lq,
  LimitQueue.wf lq → LimitQueue.wf (sweep' n order lq).1.1.
Proof.
  induction order as [|id0 rest IH]; intros n lq Hwf; [done|].
  rewrite sweep_cons.
  destruct (store lq !! id0) as [it0|]; [|by apply IH].
  destruct (ctxErr n); [done|].
  destruct (stillAtTop topItems fileItems id0 it0) as [atTop|msg]; [|done].
  destruct (negb atTop && olderThanEightHrs (clock n) (Added it0)); [|by apply IH].
  apply (IH (S n) (LimitQueue.remove id0 lq) (remove_wf _ _ Hwf)).
Qed.

(** Without a nil element in the file the sweep does not panic. *)
Lemma sweep_nil_free_ending order n lq :
  None ∉ fileItems → (sweep' n order lq).2 = Returns tt.
Proof.
  clear. intros [fs Hfs]%no_nil_pointers. revert n lq. rewrite Hfs.
  intros n lq. apply sweep_pointers_ending.
Qed.
End SweepMore.

Lemma storyRemover_cases remote file ctxErr clock order lq :
  (∃ e, (remote = Err e ∨ (∃ ids, remote = Ok ids) ∧ file = Err e) ∧
        storyRemover remote file ctxErr clock order lq =
          (lq, [], Returns (Some e))) ∨
  (∃ ids fileItems,
     remote = Ok ids ∧ file = Ok fileItems ∧
     storyRemover remote file ctxErr clock order lq =
       let run := sweep ctxErr clock (take (Z.to_nat frontPageNumArticles) ids)
                        fileItems 0 order lq in
       (run.1.1, run.1.2,
        match run.2 with
        | Returns _ => Returns None
        | Panics m => Panics m
        end)).
Proof.
  destruct remote as [ids|e].
  - destruct file as [fileItems|e].
    + right. exists ids, fileItems. split_and!; [done|done|].
      apply storyRemover_fetched.
    + left. exists e. split; [right; eauto|].
      unfold storyRemover. by rewrite fetchTopStories_front.
  - left. exists e. split; [by left|done].
Qed.

(** X9.  A pass of [storyRemover], however it ends, keeps the limit and only
    removes: every entry left is an entry that was there, [keys] is a
    subsequence of the old [keys]; it sends one [removed] event per entry that
    went; and every event carries an item that was in the tracker, that the
    search in the list of its source did not find, and for which the
    comparison of the code with eight hours held at some iteration of the
    pass, which, when [time.Unix] has a time for its [Added], says that it was
    older than eight hours.  When the decoded file has no nil element the pass
    returns. *)
Theorem storyRemover_only_removes
    (remote : result (list Z)) (file : result (list (option item)))
    (ctxErr : nat → bool) (clock : nat → Z) (order : list Z) (lq : limitQueue) :
  ∃ lq' acts ending,
    storyRemover remote file ctxErr clock order lq = (lq', acts, ending) ∧
    limit lq' = limit lq ∧
    store lq' ⊆ store lq ∧
    keys lq' `sublist_of` keys lq ∧
    size (store lq) = (size (store lq') + length (changeStream acts))%nat ∧
    (∀ c, c ∈ changeStream acts →
      Action c = changeRemove ∧
      ∃ id m, store lq !! id = Some (Item c) ∧
              olderThanEightHrs (clock m) (Added (Item c)) = true ∧
              (unixRepresentable (Added (Item c)) →
               eightHrs * nanosPerSecond <
                 clock m - Added (Item c) * nanosPerSecond)) ∧
    ((∀ items, file = Ok items → None ∉ items) → ∃ err, ending = Returns err).
Proof.
  destruct (storyRemover_cases remote file ctxErr clock order lq)
    as [(e & _ & ->)|(ids & fileItems & _ & -> & ->)].
  - exists lq, [], (Returns (Some e)). simpl.
    split_and!; [done|done|done|done|lia|by intros c ?%elem_of_nil|by eexists].
  - do 3 eexists. split; [done|].
    destruct (sweep_shrinks ctxErr clock
                (take (Z.to_nat frontPageNumArticles) ids) fileItems order 0 lq)
      as (Hl & Hs & Hk & Hsz & Hev).
    split_and!; [done..| |].
    + intros c Hc. destruct (Hev c Hc) as (Ha & id & m & Hid & _ & Hold).
      split; [done|]. exists id, m. split_and!; [done|done|].
      intros Hr. by apply olderThanEightHrs_spec.
    + intros Hnil. rewrite sweep_nil_free_ending by by apply Hnil.
      by eexists.
Qed.

(** X10.  When the fetch of the remote ranking fails, or it succeeds and the
    read of the file fails, the pass returns that error, leaves the tracker as
    it was and sends nothing. *)
Theorem storyRemover_fetch_failure
    (remote : result (list Z)) (file : result (list (option item)))
    (ctxErr : nat → bool) (clock : nat → Z) (order : list Z) (lq : limitQueue)
    (e : error) :
  remote = Err e ∨ ((∃ ids, remote = Ok ids) ∧ file = Err e) →
  storyRemover remote file ctxErr clock order lq = (lq, [], Returns (Some e)).
Proof.
  intros H.
  destruct (storyRemover_cases remote file ctxErr clock order lq)
    as [(e' & He' & ->)|(ids & fileItems & -> & -> & _)].
  - do 3 f_equal. destruct H as [->|[[ids ->] ->]], He' as [?|[[ids' ?] ?]];
      congruence.
  - destruct H as [?|[_ ?]]; discriminate.
Qed.

Lemma storyRemover_fetch_failure_witness :
  let lq := mkLimitQueue 300 [1] {[1 := mkItem 1 "" 0 "" "hn" ""]} in
  storyRemover (Ok [1; 2]) (Err "open ./input.json: no such file or directory")
               (λ _, false) (λ _, 99 * 60 * 60 * nanosPerSecond) [1] lq =
    (lq, [], Returns (Some "open ./input.json: no such file or directory")).
Proof.
  intros lq. apply storyRemover_fetch_failure. right. split; [by eexists|done].
Defined.

(** X11.  When [time.Unix] has a time for the [Added] of every item of the
    tracker and none of them is older than eight hours at any clock reading
    of the pass, the pass leaves the tracker as it was and sends nothing,
    whatever the two fetches return; and it returns when the decoded file has
    no nil element. *)
Theorem storyRemover_keeps_fresh_items
    (remote : result (list Z)) (file : result (list (option item)))
    (ctxErr : nat → bool) (clock : nat → Z) (order : list Z) (lq : limitQueue) :
  (∀ id it, store lq !! id = Some it → unixRepresentable (Added it)) →
  (∀ id it m, store lq !! id = Some it →
              clock m - Added it * nanosPerSecond ≤ eightHrs * nanosPerSecond) →
  ∃ ending,
    storyRemover remote file ctxErr clock order lq = (lq, [], ending) ∧
    ((∀ items, file = Ok items → None ∉ items) → ∃ err, ending = Returns err).
Proof.
  intros Hrep Hfresh.
  destruct (storyRemover_cases remote file ctxErr clock order lq)
    as [(e & _ & ->)|(ids & fileItems & _ & -> & ->)]; [by eexists _; eauto|].
  eexists. split.
  - cbv zeta. rewrite (surjective_pairing (sweep _ _ _ _ _ _ _).1).
    rewrite <- (surjective_pairing (sweep _ _ _ _ _ _ _).1).
    rewrite sweep_fresh; [done|].
    intros id it m Hit. specialize (Hfresh id it m Hit).
    destruct (olderThanEightHrs (clock m) (Added it)) eqn:E; [|done].
    apply olderThanEightHrs_spec in E; [lia|by eapply Hrep].
  - intros Hnil. rewrite sweep_nil_free_ending by by apply Hnil.
    by eexists.
Qed.

Lemma storyRemover_keeps_fresh_items_witness :
  let lq := mkLimitQueue 300 [1] {[1 := mkItem 1 "" 100 "" "hn" ""]} in
  ∃ ending,
    storyRemover (Ok []) (Ok []) (λ _, false)
                 (λ _, 200 * nanosPerSecond) [1] lq = (lq, [], ending) ∧
    ((∀ items : list (option item), Ok [] = Ok items → None ∉ items) →
     ∃ err, ending = Returns err).
Proof.
  intros lq. apply storyRemover_keeps_fresh_items.
  - intros id it Hit. destruct (decide (id = 1)) as [->|Hne].
    + subst lq. simpl in Hit. rewrite lookup_singleton_eq in Hit.
      simplify_eq. by vm_compute.
    + subst lq. simpl in Hit. by rewrite lookup_singleton_ne in Hit.
  - intros id it m Hit. destruct (decide (id = 1)) as [->|Hne].
    + subst lq. simpl in Hit. rewrite lookup_singleton_eq in Hit. by simplify_eq.
    + subst lq. simpl in Hit. by rewrite lookup_singleton_ne in Hit.
Defined.

(** X12.  Once an iteration of the pass finds [ctx] cancelled, the entries
    that the iteration order places at or after it are untouched: the store
    keeps them, [keys] keeps them and [remove] is not called for them.  When
    the decoded file has no nil element the pass returns. *)
Theorem storyRemover_partial_sweep
    (remote : result (list Z)) (file : result (list (option item)))
    (ctxErr : nat → bool) (clock : nat → Z)
    (order : list Z) (lq : limitQueue) (n j : nat) (id : Z) :
  iterationOrder order (store lq) →
  order !! n = Some id →
  (j ≤ n)%nat → ctxErr j = true →
  ∃ lq' acts ending,
    storyRemover remote file ctxErr clock order lq = (lq', acts, ending) ∧
    store lq' !! id = store lq !! id ∧
    (LqRemove id ∉ acts) ∧
    (id ∈ keys lq' ↔ id ∈ keys lq) ∧
    ((∀ items, file = Ok items → None ∉ items) → ∃ err, ending = Returns err).
Proof.
  intros [Hnd Hdom] Hn Hj Hc.
  destruct (storyRemover_cases remote file ctxErr clock order lq)
    as [(e & _ & ->)|(ids & fileItems & _ & -> & ->)].
  - do 3 eexists. split; [done|].
    split_and!; [done|apply not_elem_of_nil|done|by eexists].
  - do 3 eexists. split; [done|].
    destruct (sweep_cancelled ctxErr clock
                (take (Z.to_nat frontPageNumArticles) ids) fileItems
                order 0 lq n id) as (Hs & Ha & Hk); [done| |done| |].
    + intros i Hi. by apply Hdom.
    + exists j. split; [lia|done].
    + split_and!; [done..|].
      intros Hnil. rewrite sweep_nil_free_ending by by apply Hnil.
      by eexists.
Qed.

Lemma storyRemover_partial_sweep_witness :
  let old k := mkItem k "" 0 "" "hn" "" in
  let lq := mkLimitQueue 300 [1; 2] (<[2 := old 2]> {[1 := old 1]}) in
  ∃ lq' acts ending,
    storyRemover (Ok []) (Ok []) (λ k, bool_decide (1 ≤ k)%nat)
                 (λ _, 99 * 60 * 60 * nanosPerSecond) [1; 2] lq =
      (lq', acts, ending) ∧
    store lq' !! 2 = store lq !! 2 ∧
    (LqRemove 2 ∉ acts) ∧
    (2 ∈ keys lq' ↔ 2 ∈ keys lq) ∧
    ((∀ items : list (option item), Ok [] = Ok items → None ∉ items) →
     ∃ err, ending = Returns err).
Proof.
  intros old lq.
  apply (storyRemover_partial_sweep (Ok []) (Ok []) _ _ [1; 2] lq 1 1 2).
  - split; [apply (bool_decide_unpack _); by vm_compute|].
    intros k. subst lq. simpl. split.
    + intros [->|[->|?%elem_of_nil]%elem_of_cons]%elem_of_cons; [by eexists..|done].
    + intros [x Hx]. destruct (decide (k = 2)) as [->|]; [by right; left|].
      rewrite lookup_insert_ne in Hx by done.
      destruct (decide (k = 1)) as [->|]; [by left|].
      by rewrite lookup_singleton_ne in Hx.
  - reflexivity.
  - lia.
  - reflexivity.
Defined.

(** X13.  Every state the tracker of [main] can get into by iterations of
    [storyLister] and passes of [storyRemover], in any order and however the
    passes end, keeps the limit 300, holds at most 300 items, and has in
    [keys], once each, exactly the IDs of the store.  ([add] and [remove] are
    the modelled ones.) *)
Theorem tracker_invariant_reachable (lq : limitQueue) :
  trackerReachable lq →
  limit lq = humanTrackingLimit ∧
  Z.of_nat (size (store lq)) ≤ humanTrackingLimit ∧
  length (keys lq) = size (store lq) ∧
  NoDup (keys lq) ∧
  ∀ k, k ∈ keys lq ↔ is_Some (store lq !! k).
Proof.
  intros Hr.
  assert (H : LimitQueue.wf lq ∧ limit lq = humanTrackingLimit).
  { induction Hr as [|now it lq Hr [IHwf IHl]
                     |remote file ctxErr clock order lq lq' acts ending
                        Hr [IHwf IHl] Hrun].
    - split; [by apply wf_newQueue|done].
    - rewrite storyListerItem_eq. cbn [fst]. split.
      + by apply add_wf.
      + by rewrite add_limit.
    - destruct (storyRemover_cases remote file ctxErr clock order lq)
        as [(e & _ & He)|(ids & fileItems & _ & _ & He)];
        rewrite He in Hrun; cbv zeta in Hrun; simplify_eq; [done|].
      split; [by apply sweep_wf|].
      rewrite <- IHl.
      apply (sweep_shrinks ctxErr clock _ fileItems order 0 lq). }
  destruct H as [Hwf Hl]. split_and!; [done| |by apply wf_length_size|apply Hwf..].
  rewrite <- wf_length_size, <- Hl by done. apply Hwf.
Qed.

Lemma tracker_invariant_reachable_witness :
  let lq := (storyListerItem LimitQueue.add 0 (mkItem 1 "" 0 "" "hn" "") queue).1 in
  limit lq = humanTrackingLimit ∧
  Z.of_nat (size (store lq)) ≤ humanTrackingLimit ∧
  length (keys lq) = size (store lq) ∧
  NoDup (keys lq) ∧
  ∀ k, k ∈ keys lq ↔ is_Some (store lq !! k).
Proof.
  intros lq. apply (tracker_invariant_reachable lq).
  apply reach_lister, reach_start.
Defined.

(** X14.  The line [changeLogger] prints for a change tells its action and
    the ID of its item: two changes with the same line have both in common. *)
Theorem change_String_inj (c1 c2 : change) :
  change_String c1 = change_String c2 →
  Action c1 = Action c2 ∧ ID (Item c1) = ID (Item c2).
Proof.
  unfold change_String.
  destruct (Action c1), (Action c2); cbn [changeAction_string]; intros H;
    try (by vm_compute in H).
  - split; [done|]. do 2 apply (inj (String.app _)) in H. by apply (inj pretty).
  - split; [done|]. do 2 apply (inj (String.app _)) in H. by apply (inj pretty).
Qed.

Lemma change_String_inj_witness :
  let c1 := mkChange changeRemove (mkItem 42 "https://a.example/x" 1 "" "hn" "") in
  let c2 := mkChange changeRemove (mkItem 42 "https://b.example/y" 2 "" "file" "") in
  Action c1 = Action c2 ∧ ID (Item c1) = ID (Item c2).
Proof. intros c1 c2. apply (change_String_inj c1 c2). reflexivity. Defined.

Section StringFacts.
Import strings.

Lemma append_cons c a b :
  String.append (String c a) b = String c (String.append a b).
Proof. reflexivity. Qed.

Lemma append_nil_l b : String.append EmptyString b = b.
Proof. reflexivity. Qed.

Lemma append_nil_r s : String.append s EmptyString = s.
Proof. induction s as [|c s IH]; [done|]. by rewrite append_cons, IH. Qed.

Lemma append_assoc a b c :
  String.append (String.append a b) c = String.append a (String.append b c).
Proof. induction a as [|x a IH]; [done|]. by rewrite !append_cons, IH. Qed.

Lemma ContainsByte_append c a b :
  ContainsByte c (String.append a b) = ContainsByte c a || ContainsByte c b.
Proof.
  induction a as [|x a IH]; [done|].
  rewrite append_cons. simpl. rewrite IH. by rewrite orb_assoc.
Qed.

Lemma byte_eq_true a b : byte_eq a b = true ↔ a = b.
Proof. apply bool_decide_eq_true. Qed.

Lemma byte_eq_false a b : byte_eq a b = false ↔ a ≠ b.
Proof. apply bool_decide_eq_false. Qed.

Lemma prefix_append p a b :
  String.prefix p a = true → String.prefix p (String.append a b) = true.
Proof.
  revert a. induction p as [|x p IH]; intros a.
  - intros _. by destruct (String.append a b).
  - destruct a as [|y a]; [done|]. rewrite append_cons. simpl.
    destruct (ascii_dec x y); [apply IH|done].
Qed.

Lemma prefix_nil_r p : String.prefix p EmptyString = true → p = EmptyString.
Proof. by destruct p. Qed.

Lemma prefix_split p s :
  String.prefix p s = true → ∃ rest, s = String.append p rest.
Proof.
  revert s. induction p as [|x p IH]; intros s; [by exists s|].
  destruct s as [|y s]; [done|]. simpl.
  destruct (ascii_dec x y) as [->|]; [|done].
  intros [rest ->]%IH. by exists rest.
Qed.

Lemma SplitAtIndex_eq sub s :
  SplitAtIndex sub s =
    if String.prefix sub s then Some (EmptyString, s)
    else match s with
         | EmptyString => None
         | String c rest =>
             match SplitAtIndex sub rest with
             | Some (b, a) => Some (String c b, a)
             | None => None
             end
         end.
Proof. by destruct s. Qed.

Lemma SplitAtIndex_spec sub s b a :
  sub ≠ EmptyString →
  SplitAtIndex sub s = Some (b, a) →
  s = String.append b a ∧ String.prefix sub a = true ∧
  SplitAtIndex sub b = None.
Proof.
  intros Hsub.
  assert (Hnil : SplitAtIndex sub EmptyString = None).
  { rewrite SplitAtIndex_eq.
    destruct (String.prefix sub EmptyString) eqn:E; [|done].
    by apply prefix_nil_r in E. }
  revert b a. induction s as [|c s IH]; intros b a.
  { by rewrite Hnil. }
  rewrite SplitAtIndex_eq.
  destruct (String.prefix sub (String c s)) eqn:E.
  - by intros [= <- <-].
  - destruct (SplitAtIndex sub s) as [[b' a']|] eqn:Es; [|done].
    intros [= <- <-]. destruct (IH b' a' eq_refl) as (-> & Hp & Hn).
    split_and!; [done|done|]. rewrite SplitAtIndex_eq.
    destruct (String.prefix sub (String c b')) eqn:E'.
    + apply (prefix_append _ _ a') in E'. rewrite append_cons in E'. congruence.
    + by rewrite Hn.
Qed.

Lemma CutLast_none c s : ContainsByte c s = false → CutLast c s = None.
Proof.
  induction s as [|x s IH]; simpl; [done|].
  intros [Hx Hs]%orb_false_iff. by rewrite IH, Hx.
Qed.

Lemma CutLast_append c a p :
  ContainsByte c p = false →
  CutLast c (String.append a (String c p)) = Some (a, p).
Proof.
  intros Hp. induction a as [|x a IH].
  - rewrite append_nil_l. simpl.
    rewrite CutLast_none by done. unfold byte_eq. by rewrite bool_decide_eq_true_2.
  - rewrite append_cons. simpl. by rewrite IH.
Qed.

Lemma Cut_append c a p :
  ContainsByte c a = false →
  Cut c (String.append a (String c p)) = (a, p, true).
Proof.
  induction a as [|x a IH].
  - intros _. rewrite append_nil_l. simpl.
    unfold byte_eq. by rewrite bool_decide_eq_true_2.
  - rewrite append_cons. simpl. intros [Hx Ha]%orb_false_iff.
    by rewrite Hx, IH.
Qed.

Lemma length_append a b :
  String.length (String.append a b) = (String.length a + String.length b)%nat.
Proof. induction a as [|x a IH]; [done|]. rewrite append_cons. simpl. congruence. Qed.
End StringFacts.

(** X15.  With a non-empty [X-Forwarded-For] header, [realIP] is the text of
    the header before its first comma followed by a space (all of it when
    there is none), whatever [X-Real-IP] and [RemoteAddr] are. *)
Theorem realIP_forwarded_first (xForwardedFor xRealIP remoteAddr : string) :
  xForwardedFor ≠ EmptyString →
  ∃ rest,
    xForwardedFor = String.append (realIP xForwardedFor xRealIP remoteAddr) rest ∧
    (rest = EmptyString ∨ String.prefix ", " rest = true) ∧
    strings.SplitAtIndex ", " (realIP xForwardedFor xRealIP remoteAddr) = None.
Proof.
  intros Hne. unfold realIP. rewrite bool_decide_eq_false_2 by done. simpl.
  destruct (strings.SplitAtIndex ", " xForwardedFor) as [[first rest]|] eqn:E.
  - apply SplitAtIndex_spec in E as (-> & Hp & Hn); [|done].
    exists rest. split_and!; [done|by right|done].
  - exists EmptyString. split_and!; [by rewrite append_nil_r|by left|done].
Qed.

Lemma realIP_forwarded_first_witness :
  ∃ rest,
    "203.0.113.7, 10.0.0.1, 10.0.0.2"%string =
      String.append (realIP "203.0.113.7, 10.0.0.1, 10.0.0.2" "198.51.100.1"
                            "10.1.1.1:5000") rest ∧
    (rest = EmptyString ∨ String.prefix ", " rest = true) ∧
    strings.SplitAtIndex ", " (realIP "203.0.113.7, 10.0.0.1, 10.0.0.2"
                                      "198.51.100.1" "10.1.1.1:5000") = None.
Proof.
  apply (realIP_forwarded_first "203.0.113.7, 10.0.0.1, 10.0.0.2"
           "198.51.100.1" "10.1.1.1:5000").
  discriminate.
Defined.

Lemma SplitHostPort_plain host port :
  plainText host = true → plainText port = true →
  net.SplitHostPort (String.append host (String ":" port)) = Ok (host, port).
Proof.
  unfold plainText. rewrite !andb_true_iff, !negb_true_iff.
  intros [[Hc Ho] Hcl] [[Pc Po] Pcl].
  unfold net.SplitHostPort. rewrite CutLast_append by done.
  assert (strings.HasPrefix (String.append host (String ":" port)) "[" = false) as ->.
  { unfold strings.HasPrefix. destruct host as [|x host]; [done|].
    rewrite append_cons. cbn [String.prefix].
    destruct (ascii_dec "[" x) as [<-|]; [|done].
    simpl in Ho. discriminate Ho. }
  rewrite Hc, !ContainsByte_append. simpl. by rewrite Ho, Hcl, Po, Pcl.
Qed.

Lemma HasPrefix_cons c s : strings.HasPrefix (String c s) (String c EmptyString) = true.
Proof.
  unfold strings.HasPrefix. cbn [String.prefix].
  destruct (ascii_dec c c); [by destruct s|done].
Qed.

Lemma SplitHostPort_bracketed host port :
  strings.ContainsByte "[" host = false →
  strings.ContainsByte "]" host = false →
  plainText port = true →
  net.SplitHostPort
    (String "[" (String.append host (String "]" (String ":" port)))) =
    Ok (host, port).
Proof.
  unfold plainText. rewrite !andb_true_iff, !negb_true_iff.
  intros Ho Hcl [[Pc Po] Pcl].
  unfold net.SplitHostPort.
  assert (Hlast : strings.CutLast ":"
            (String "[" (String.append host (String "]" (String ":" port)))) =
          Some (String "[" (String.append host "]"), port)).
  { rewrite <- (CutLast_append ":" (String "[" (String.append host "]")) port) by done.
    by rewrite append_cons, append_assoc. }
  rewrite Hlast.
  assert (Hcut : strings.Cut "]"
            (String "[" (String.append host (String "]" (String ":" port)))) =
          (String "[" host, String ":" port, true)).
  { rewrite <- (Cut_append "]" (String "[" host) (String ":" port)); [done|].
    simpl. by rewrite Hcl. }
  rewrite Hcut, HasPrefix_cons. cbn [negb].
  rewrite bool_decide_eq_false_2 by done.
  rewrite bool_decide_eq_true_2
    by (simpl; rewrite length_append; simpl; lia).
  cbn [strings.dropBytes]. rewrite ContainsByte_append. simpl.
  by rewrite Ho, Po, Pcl.
Qed.

(** X16.  With neither header, [realIP] of a [RemoteAddr] of the form
    [host:port] is [host], and of the bracketed form with [host6] between the
    brackets is [host6], for a port and a host without colon or bracket and a
    [host6] without bracket. *)
Theorem realIP_remote_addr (host host6 port : string) :
  plainText port = true →
  plainText host = true →
  strings.ContainsByte "[" host6 = false →
  strings.ContainsByte "]" host6 = false →
  realIP "" "" (String.append host (String ":" port)) = host ∧
  realIP "" ""
    (String "[" (String.append host6 (String "]" (String ":" port)))) = host6.
Proof.
  intros Hp Hh Ho Hc. split.
  - unfold realIP. simpl. by rewrite SplitHostPort_plain.
  - unfold realIP.
    rewrite !(bool_decide_eq_true_2 (EmptyString = EmptyString)) by done.
    cbn [negb]. by rewrite SplitHostPort_bracketed.
Qed.

Lemma realIP_remote_addr_witness :
  realIP "" "" (String.append "192.0.2.10" (String ":" "51234")) =
    "192.0.2.10"%string ∧
  realIP "" ""
    (String "[" (String.append "2001:db8::1" (String "]" (String ":" "51234")))) =
    "2001:db8::1"%string.
Proof.
  apply (realIP_remote_addr "192.0.2.10" "2001:db8::1" "51234"); reflexivity.
Defined.

(** X17.  With neither header and a [RemoteAddr] that has no colon, [realIP]
    is the empty string: the error of [net.SplitHostPort] is dropped. *)
Theorem realIP_no_port (remoteAddr : string) :
  strings.ContainsByte ":" remoteAddr = false →
  realIP "" "" remoteAddr = EmptyString.
Proof.
  intros H. unfold realIP. simpl. unfold net.SplitHostPort.
  by rewrite CutLast_none.
Qed.

Lemma realIP_no_port_witness : realIP "" "" "192.0.2.10" = EmptyString.
Proof. apply (realIP_no_port "192.0.2.10"). reflexivity. Defined.

Section SplitFacts.
Import strings.

Lemma CutLast_spec c s x b :
  CutLast c s = Some (x, b) →
  s = String.append x (String c b) ∧ ContainsByte c b = false.
Proof.
  revert x b. induction s as [|y s IH]; intros x b; simpl; [done|].
  destruct (CutLast c s) as [[x0 b0]|] eqn:E.
  - intros [= <- <-]. destruct (IH x0 b0 eq_refl) as [-> Hb].
    by rewrite append_cons.
  - destruct (byte_eq y c) eqn:Ey; [|done].
    intros [= <- <-]. apply byte_eq_true in Ey as ->. split; [done|].
    clear IH. induction s as [|z s IH]; simpl in *; [done|].
    destruct (CutLast c s) as [[? ?]|]; [done|].
    destruct (byte_eq z c); [done|]. by apply IH.
Qed.

Lemma CutLast_none_inv c s : CutLast c s = None → ContainsByte c s = false.
Proof.
  induction s as [|z s IH]; simpl; [done|].
  destruct (CutLast c s) as [[? ?]|]; [done|].
  destruct (byte_eq z c); [done|]. by intros ?%IH.
Qed.

Lemma Split_nonempty sep s : Split sep s ≠ [].
Proof.
  destruct s as [|c s]; simpl; [done|].
  destruct (byte_eq c sep); [done|]. by destruct (Split sep s).
Qed.

Lemma Split_cases sep s :
  match CutLast sep s with
  | Some (x, b) => Split sep s = Split sep x ++ [b]
  | None => Split sep s = [s]
  end.
Proof.
  induction s as [|c s IH]; simpl; [done|].
  destruct (CutLast sep s) as [[x0 b]|] eqn:E.
  - simpl. pose proof (Split_nonempty sep x0) as Hne.
    destruct (byte_eq c sep).
    + rewrite IH. reflexivity.
    + rewrite IH. destruct (Split sep x0); [done|reflexivity].
  - destruct (byte_eq c sep); simpl; rewrite IH; reflexivity.
Qed.

Lemma ContainsByte_dropBytes c n s :
  ContainsByte c s = false → ContainsByte c (dropBytes n s) = false.
Proof.
  revert s. induction n as [|n IH]; intros s; simpl; [done|].
  destruct s as [|x s]; simpl; [done|].
  intros [_ ?]%orb_false_iff. by apply IH.
Qed.

Lemma ContainsByte_dropLast c s :
  ContainsByte c s = false → ContainsByte c (dropLast s) = false.
Proof.
  induction s as [|x s IH]; simpl; [done|].
  intros [Hx Hs]%orb_false_iff. destruct s as [|y s]; [done|].
  cbn [ContainsByte]. rewrite Hx. by apply IH.
Qed.

Lemma firstMatch_r_none s :
  ContainsByte "." s = false → ContainsByte "/" s = false →
  firstMatch r s = None.
Proof.
  intros Hdot Hslash.
  assert (Hno : ∀ old, (ContainsByte "." old = true ∨ ContainsByte "/" old = true) →
                       String.prefix old s = false).
  { intros old Hold. destruct (String.prefix old s) eqn:E; [|done].
    apply prefix_split in E as [rest ->].
    rewrite ContainsByte_append in Hdot, Hslash.
    apply orb_false_iff in Hdot as [? _], Hslash as [? _].
    destruct Hold; congruence. }
  unfold r. cbn [firstMatch].
  rewrite !Hno; [done|by left..|by right|by right].
Qed.

Lemma replaceFrom_r_id fuel : ∀ s,
  ContainsByte "." s = false → ContainsByte "/" s = false →
  replaceFrom fuel r s = s.
Proof.
  induction fuel as [|fuel IH]; intros s Hdot Hslash; [done|].
  destruct s as [|c s]; [done|].
  cbn [replaceFrom]. rewrite firstMatch_r_none by done.
  simpl in Hdot, Hslash.
  apply orb_false_iff in Hdot as [_ ?], Hslash as [_ ?].
  by rewrite IH.
Qed.
End SplitFacts.

Section UrlFacts.
Import strings url.

Lemma unhex_lt16 c : (unhex c < 16)%N.
Proof. destruct c as [[] [] [] [] [] [] [] []]; by vm_compute. Qed.

Lemma unhex2_code a b : N_of_ascii (unhex2 a b) = (16 * unhex a + unhex b)%N.
Proof.
  unfold unhex2. apply N_ascii_embedding.
  pose proof (unhex_lt16 a). pose proof (unhex_lt16 b). lia.
Qed.

Lemma unhex2_slash a b : unhex2 a b = "/"%char → unhex a = 2%N.
Proof.
  intros H. apply (f_equal N_of_ascii) in H. rewrite unhex2_code in H.
  change (N_of_ascii "/") with 47%N in H.
  pose proof (unhex_lt16 b). lia.
Qed.

Lemma unescapeCheck_no_slash mode : 
  mode = encodeHost ∨ mode = encodeZone →
  ∀ n s, (String.length s ≤ n)%nat →
    unescapeCheck mode s = None →
    ContainsByte "/" (unescapeDecode s) = false.
Proof.
  intros Hmode n. induction n as [|n IH]; intros s Hlen.
  { destruct s; [done|simpl in Hlen; lia]. }
  destruct s as [|c rest]; [done|].
  cbn [unescapeCheck unescapeDecode].
  destruct (byte_eq c "%") eqn:Ec.
  - destruct rest as [|a [|b rest']]; [done|done|].
    destruct (negb (ishex a && ishex b)); [done|].
    destruct (bool_decide (mode = encodeHost) && (unhex a <? 8)%N
              && negb (byte_eq a "2" && byte_eq b "5")) eqn:E1; [done|].
    destruct (bool_decide (mode = encodeZone)
              && negb (byte_eq a "2" && byte_eq b "5")
              && negb (byte_eq (unhex2 a b) " ")
              && shouldEscapeHost (unhex2 a b)) eqn:E2; [done|].
    intros Hrest. cbn [ContainsByte].
    rewrite (IH rest') by (done || (simpl in Hlen; lia)).
    rewrite orb_false_r. apply byte_eq_false. intros Hv.
    assert (H25 : byte_eq a "2" && byte_eq b "5" = false).
    { destruct (byte_eq a "2" && byte_eq b "5") eqn:E; [|done].
      apply andb_true_iff in E as [->%byte_eq_true ->%byte_eq_true].
      by vm_compute in Hv. }
    rewrite H25 in E1, E2. cbn [negb] in E1, E2.
    rewrite andb_true_r in E1, E2.
    destruct Hmode as [->| ->].
    + rewrite bool_decide_eq_true_2 in E1 by done. cbn [andb] in E1.
      apply N.ltb_ge in E1. apply unhex2_slash in Hv. lia.
    + rewrite bool_decide_eq_true_2 in E2 by done. cbn [andb] in E2.
      rewrite Hv in E2. by vm_compute in E2.
  - destruct ((bool_decide (mode = encodeHost) || bool_decide (mode = encodeZone))
              && (N_of_ascii c <? 128)%N && shouldEscapeHost c) eqn:E1; [done|].
    intros Hrest. cbn [ContainsByte].
    rewrite (IH rest) by (done || (simpl in Hlen; lia)).
    rewrite orb_false_r. apply byte_eq_false. intros ->.
    assert (bool_decide (mode = encodeHost) || bool_decide (mode = encodeZone) = true)
      as Hm.
    { destruct Hmode as [->| ->]; by vm_compute. }
    rewrite Hm in E1. by vm_compute in E1.
Qed.

Lemma unescape_no_slash mode s h :
  mode = encodeHost ∨ mode = encodeZone →
  unescape s mode = Ok h → ContainsByte "/" h = false.
Proof.
  intros Hmode. unfold unescape.
  destruct (unescapeCheck mode s) eqn:E; [done|]. intros [= <-].
  by eapply unescapeCheck_no_slash.
Qed.

Lemma parseHost_no_slash host h :
  parseHost host = Ok h → ContainsByte "/" h = false.
Proof.
  unfold parseHost.
  destruct (HasPrefix host "[").
  - destruct (CutLast "]" host) as [[upto colonPort]|]; [|done].
    destruct (negb (validOptionalPort colonPort)); [done|].
    destruct (SplitAtIndex "%25" upto) as [[before zone]|].
    + destruct (unescape before encodeHost) as [h1|] eqn:E1; [|done].
      destruct (unescape zone encodeZone) as [h2|] eqn:E2; [|done].
      destruct (unescape (String "]" colonPort) encodeHost) as [h3|] eqn:E3;
        [|done].
      intros [= <-]. rewrite !ContainsByte_append.
      apply unescape_no_slash in E1 as ->; [|by left].
      apply unescape_no_slash in E2 as ->; [|by right].
      apply unescape_no_slash in E3 as ->; [|by left]. done.
    + apply unescape_no_slash. by left.
  - destruct (CutLast ":" host) as [[? port]|].
    + destruct (negb (validOptionalPort (String ":" port))); [done|].
      apply unescape_no_slash. by left.
    + apply unescape_no_slash. by left.
Qed.

Lemma parseAuthority_no_slash authority h :
  parseAuthority authority = Ok h → ContainsByte "/" h = false.
Proof.
  unfold parseAuthority.
  destruct (CutLast "@" authority) as [[userinfo hostport]|];
    [|apply parseHost_no_slash].
  destruct (parseHost hostport) as [host|] eqn:E; [|done]. cbn.
  destruct (negb (validUserinfo userinfo)); [done|].
  destruct (Cut ":" userinfo) as [[username password] ?].
  destruct (unescape username encodeUserPassword); [|done]. cbn.
  destruct (unescape password encodeUserPassword); [|done]. cbn.
  intros [= <-]. by eapply parseHost_no_slash.
Qed.

Lemma parse_no_slash rawURL u :
  parse rawURL = Ok u → ContainsByte "/" (Host u) = false.
Proof.
  unfold parse.
  destruct (stringContainsCTLByte rawURL); [done|].
  case_bool_decide; [by intros [= <-]|].
  destruct (getScheme rawURL) as [[scheme0 rest0]|]; [|done].
  unfold mbind, result_bind. cbv beta iota zeta.
  destruct (if HasSuffixByte "?" rest0 && bool_decide (CountByte "?" rest0 = 1%nat)
            then (dropLast rest0, EmptyString)
            else let '(b, a, _) := Cut "?" rest0 in (b, a)) as [rest rawQuery].
  destruct (negb (HasPrefix rest "/") && negb (bool_decide (ToLower scheme0 = "")));
    [by intros [= <-]|].
  destruct (negb (HasPrefix rest "/") && ContainsByte ":" (Cut "/" rest).1.1);
    [done|].
  destruct ((negb (bool_decide (ToLower scheme0 = "")) || negb (HasPrefix rest "///"))
            && HasPrefix rest "//").
  - destruct (match SplitAtIndex "/" (dropBytes 2 rest) with
              | Some (a, r) => (a, r)
              | None => (dropBytes 2 rest, EmptyString)
              end) as [authority rest'].
    destruct (parseAuthority authority) as [host|] eqn:E; [|done].
    destruct (unescape rest' encodePath); [|done].
    intros [= <-]. by eapply parseAuthority_no_slash.
  - destruct (unescape rest encodePath); [|done]. by intros [= <-].
Qed.

Lemma Parse_no_slash rawURL u :
  Parse rawURL = Ok u → ContainsByte "/" (Host u) = false.
Proof.
  unfold Parse. destruct (Cut "#" rawURL) as [[u0 frag] ?].
  destruct (parse u0) as [url|] eqn:E; [|done]. cbn.
  apply parse_no_slash in E.
  case_bool_decide; [by intros [= <-]|].
  destruct (unescape frag encodeFragment); [|done]. cbn. by intros [= <-].
Qed.

Lemma Hostname_no_slash u :
  ContainsByte "/" (Host u) = false → ContainsByte "/" (Hostname u) = false.
Proof.
  intros H. unfold Hostname.
  assert (Hh : ContainsByte "/"
            match CutLast ":" (Host u) with
            | Some (h, port) =>
                if validOptionalPort (String ":" port) then h else Host u
            | None => Host u
            end = false).
  { destruct (CutLast ":" (Host u)) as [[h port]|] eqn:E; [|done].
    destruct (validOptionalPort (String ":" port)); [|done].
    apply CutLast_spec in E as [E _]. rewrite E, ContainsByte_append in H.
    by apply orb_false_iff in H as [? _]. }
  destruct (HasPrefix _ "[" && HasSuffixByte "]" _); [|done].
  by apply ContainsByte_dropLast, ContainsByte_dropBytes.
Qed.
End UrlFacts.

Lemma Split_last sep s :
  nth (length (strings.Split sep s) - 1) (strings.Split sep s) EmptyString =
    match strings.CutLast sep s with Some (_, b) => b | None => s end.
Proof.
  pose proof (Split_cases sep s) as H.
  destruct (strings.CutLast sep s) as [[x b]|]; rewrite H; [|done].
  rewrite length_app. simpl.
  replace (length (strings.Split sep x) + 1 - 1)%nat
    with (length (strings.Split sep x)) by lia.
  by rewrite nth_middle.
Qed.

(** X1.  When [url.Parse] accepts the link and the hostname has no dot,
    [urlToDomain] returns the hostname as it is: a hostname never contains
    [/], so none of the strings of the replacer [r] can occur in it. *)
Theorem urlToDomain_without_dot (link : string) (u : url.URL) :
  url.Parse link = Ok u →
  strings.ContainsByte "." (url.Hostname u) = false →
  urlToDomain link = Ok (url.Hostname u).
Proof.
  intros HP Hdot. unfold urlToDomain. rewrite HP.
  pose proof (Split_cases "." (url.Hostname u)) as Hs.
  rewrite CutLast_none in Hs by done. rewrite Hs. simpl.
  unfold strings.Replace. rewrite replaceFrom_r_id; [done|done|].
  apply Hostname_no_slash. by eapply Parse_no_slash.
Qed.

Lemma urlToDomain_without_dot_witness :
  urlToDomain "http://localhost:8080/feed" = Ok "localhost"%string.
Proof.
  apply (urlToDomain_without_dot "http://localhost:8080/feed"
           (url.mkURL "http" "" "localhost:8080" "/feed" "" ""));
    reflexivity.
Defined.

Lemma HasSuffixByte_snoc c s :
  strings.HasSuffixByte c (String.append s (String c EmptyString)) = true.
Proof.
  induction s as [|x s IH].
  - rewrite append_nil_l. simpl. by apply byte_eq_true.
  - rewrite append_cons. cbn [strings.HasSuffixByte].
    destruct (String.append s (String c EmptyString)) eqn:E; [|done].
    by destruct s.
Qed.

Lemma lastLabel_spec x :
  strings.ContainsByte "." (lastLabel x) = false ∧
  ∃ pre, x = String.append pre (lastLabel x) ∧
         (pre = EmptyString ∨ strings.HasSuffixByte "." pre = true).
Proof.
  unfold lastLabel. destruct (strings.CutLast "." x) as [[y a]|] eqn:E.
  - apply CutLast_spec in E as [-> Ha]. split; [done|].
    exists (String.append y "."). split.
    + by rewrite append_assoc.
    + right. apply HasSuffixByte_snoc.
  - split; [by apply CutLast_none_inv|]. exists EmptyString. by split; [|left].
Qed.

(** X2.  When the hostname has a dot, [urlToDomain] returns its last two
    labels joined by a dot: a suffix of the hostname that starts at the
    beginning or right after a dot and holds exactly one dot. *)
Theorem urlToDomain_last_two_labels (link : string) (u : url.URL) (x tld : string) :
  url.Parse link = Ok u →
  strings.CutLast "." (url.Hostname u) = Some (x, tld) →
  urlToDomain link = Ok (String.append (lastLabel x) (String "." tld)) ∧
  strings.ContainsByte "." (lastLabel x) = false ∧
  strings.ContainsByte "." tld = false ∧
  ∃ pre, url.Hostname u =
           String.append pre (String.append (lastLabel x) (String "." tld)) ∧
         (pre = EmptyString ∨ strings.HasSuffixByte "." pre = true).
Proof.
  intros HP Hcut.
  destruct (lastLabel_spec x) as (Hlab & pre & Hx & Hpre).
  pose proof (CutLast_spec _ _ _ _ Hcut) as [Hh Htld].
  split_and!; [|done|done|].
  - unfold urlToDomain. rewrite HP.
    pose proof (Split_cases "." (url.Hostname u)) as Hs. rewrite Hcut in Hs.
    rewrite Hs. pose proof (Split_nonempty "." x) as Hne.
    rewrite length_app. cbn [length].
    rewrite bool_decide_eq_true_2
      by (destruct (strings.Split "." x); [done|simpl; lia]).
    do 2 f_equal.
    + replace (length (strings.Split "." x) + 1 - 2)%nat
        with (length (strings.Split "." x) - 1)%nat by lia.
      rewrite app_nth1 by (destruct (strings.Split "." x); [done|simpl; lia]).
      apply Split_last.
    + replace (length (strings.Split "." x) + 1 - 1)%nat
        with (length (strings.Split "." x)) by lia.
      by rewrite nth_middle.
  - exists pre. split; [|done]. rewrite Hh. rewrite Hx at 1. by rewrite append_assoc.
Qed.

Lemma urlToDomain_last_two_labels_witness :
  urlToDomain "https://blog.other.example.co.uk:8443/p?q=1#top" =
    Ok (String.append (lastLabel "blog.other.example.co") (String "." "uk")) ∧
  strings.ContainsByte "." (lastLabel "blog.other.example.co") = false ∧
  strings.ContainsByte "." "uk" = false ∧
  ∃ pre, url.Hostname
           (url.mkURL "https" "" "blog.other.example.co.uk:8443" "/p" "q=1" "top") =
           String.append pre
             (String.append (lastLabel "blog.other.example.co") (String "." "uk")) ∧
         (pre = EmptyString ∨ strings.HasSuffixByte "." pre = true).
Proof.
  apply (urlToDomain_last_two_labels
           "https://blog.other.example.co.uk:8443/p?q=1#top"
           (url.mkURL "https" "" "blog.other.example.co.uk:8443" "/p" "q=1" "top")
           "blog.other.example.co" "uk"); reflexivity.
Defined.

Lemma append_inv_tail a b s : String.append a s = String.append b s → a = b.
Proof.
  revert b. induction a as [|x a IH]; intros [|y b] H.
  - done.
  - apply (f_equal String.length) in H.
    rewrite append_nil_l, append_cons in H. simpl in H.
    rewrite length_append in H. lia.
  - apply (f_equal String.length) in H.
    rewrite append_nil_l, append_cons in H. simpl in H.
    rewrite length_append in H. lia.
  - rewrite !append_cons in H. injection H as -> H. f_equal. by apply IH.
Qed.

Lemma mmdbFileName_inj a b : mmdbFileName a = mmdbFileName b → a = b.
Proof.
  unfold mmdbFileName. intros H.
  apply (inj (String.app _)) in H. apply append_inv_tail in H.
  by apply (inj pretty).
Qed.

Lemma mmdbFileName_not_initial k : mmdbFileName k ≠ mmdbInitialPath.
Proof. unfold mmdbFileName, mmdbInitialPath. intros H. by vm_compute in H. Qed.

Lemma mmdbKnownPath_mono c c' p : c ≤ c' → mmdbKnownPath c p → mmdbKnownPath c' p.
Proof. intros Hc [->|(k & Hk & ->)]; [by left|]. right. exists k. split; [lia|done]. Qed.

Lemma mmdbKnownPath_fresh c p : 0 ≤ c → mmdbKnownPath c p → p ≠ mmdbFileName c.
Proof.
  intros Hc [->|(k & Hk & ->)] H.
  - by eapply mmdbFileName_not_initial.
  - apply mmdbFileName_inj in H. lia.
Qed.

Lemma fetchLatestMmdb_spec st tk st' acts res :
  fetchLatestMmdb st tk = (st', acts, res) →
  let path := mmdbFileName (fileDownloadCount st) in
  serverETag st' = serverETag st ∧ mmdbPath st' = mmdbPath st ∧
  geoIPReader st' = geoIPReader st ∧ newFilePath st' = path ∧
  ((res = Ok path ∧ acts = [FsCreate path; FsOpen path] ∧
    fileDownloadCount st' = fileDownloadCount st + 1) ∨
   (∃ err, res = Err err ∧ (acts = [] ∨ acts = [FsCreate path]) ∧
           (fileDownloadCount st' = fileDownloadCount st ∨
            fileDownloadCount st' = fileDownloadCount st + 1))).
Proof.
  unfold fetchLatestMmdb. cbv zeta.
  repeat case_match; intros ?; simplify_eq; cbn;
    (split_and!; [done|done|done|done|]);
    first [ by left | right; eexists; split_and!; [done|auto|auto] ].
Qed.

Lemma mmdbDownloaderTick_safe st tk st' acts :
  mmdbSafe st →
  mmdbDownloaderTick st tk = (st', acts) →
  mmdbSafe st' ∧
  (∀ p, FsCreate p ∈ acts → p ≠ geoIPReader st) ∧
  (∀ p, FsRemove p ∈ acts → p ≠ geoIPReader st') ∧
  (∀ p, FsOpen p ∈ acts → p = geoIPReader st').
Proof.
  intros (Hc & Hr & Hp). unfold mmdbDownloaderTick.
  destruct (fetchLatestMmdb st tk) as [[st1 acts1] res] eqn:E.
  apply fetchLatestMmdb_spec in E as (He & Hpath & Hreader & Hnew & Hres).
  pose proof (mmdbKnownPath_fresh _ _ Hc Hr) as Hfresh.
  pose proof (mmdbKnownPath_fresh _ _ Hc Hp) as Hfresh'.
  destruct Hres as [(-> & -> & Hcount)|(err & -> & Hacts & Hcount)].
  - assert (Hknown : mmdbKnownPath (fileDownloadCount st1)
                       (mmdbFileName (fileDownloadCount st))).
    { right. exists (fileDownloadCount st). split; [lia|done]. }
    assert (Hold : mmdbKnownPath (fileDownloadCount st1) (mmdbPath st1)).
    { rewrite Hpath. eapply mmdbKnownPath_mono; [|done]. lia. }
    destruct (removeOld tk) as [err|]; intros [= <- <-]; cbn.
    + split_and!.
      * unfold mmdbSafe; cbn; split_and!; [lia|done|done].
      * intros p Hin. set_unfold. intuition (try congruence).
      * intros p Hin. set_unfold.
        assert (p = mmdbPath st1) as -> by intuition (try congruence). by rewrite Hpath.
      * intros p Hin. set_unfold. intuition (try congruence).
    + rewrite Hnew. split_and!.
      * unfold mmdbSafe; cbn; split_and!; [lia|done|done].
      * intros p Hin. set_unfold. intuition (try congruence).
      * intros p Hin. set_unfold.
        assert (p = mmdbPath st1) as -> by intuition (try congruence). by rewrite Hpath.
      * intros p Hin. set_unfold. intuition (try congruence).
  - intros [= <- <-]. rewrite Hreader. split_and!.
    + unfold mmdbSafe. split_and!.
      * lia.
      * rewrite Hreader. eapply mmdbKnownPath_mono; [|done]. lia.
      * rewrite Hpath. eapply mmdbKnownPath_mono; [|done]. lia.
    + intros p Hin. set_unfold.
      destruct Hacts as [->| ->], Hin as [Hin|Hin]; set_unfold; intuition (try congruence).
    + intros p Hin. set_unfold.
      destruct Hacts as [->| ->], Hin as [Hin|Hin]; set_unfold; intuition (try congruence).
    + intros p Hin. set_unfold.
      destruct Hacts as [->| ->], Hin as [Hin|Hin]; set_unfold; intuition (try congruence).
Qed.

Lemma mmdbDownloader_safe ticks : ∀ st,
  mmdbSafe st → mmdbSafe (mmdbDownloader ticks st).1.
Proof.
  induction ticks as [|tk ticks IH]; intros st Hs; [done|].
  cbn [mmdbDownloader].
  destruct (mmdbDownloaderTick st tk) as [st1 acts] eqn:E.
  apply mmdbDownloaderTick_safe in E as [Hs1 _]; [|done].
  specialize (IH st1 Hs1). by destruct (mmdbDownloader ticks st1).
Qed.

Lemma mmdbStart_safe etag : mmdbSafe (mmdbStart etag).
Proof. split_and!; [done|by left|by left]. Qed.

(** X18.  After any number of ticks of [mmdbDownloader], a tick never
    creates (truncates) the file the reader in use was opened from, never
    calls [os.Remove] on the file of the reader it has just installed, and a
    reader it installs is opened from a file other than the one in use
    before. *)
Theorem mmdb_never_touches_file_in_use
    (etag : string) (ticks : list mmdbTick) (tk : mmdbTick) :
  let st := (mmdbDownloader ticks (mmdbStart etag)).1 in
  let st' := (mmdbDownloaderTick st tk).1 in
  let acts := (mmdbDownloaderTick st tk).2 in
  (∀ p, FsCreate p ∈ acts → p ≠ geoIPReader st) ∧
  (∀ p, FsRemove p ∈ acts → p ≠ geoIPReader st') ∧
  (∀ p, FsOpen p ∈ acts → p = geoIPReader st' ∧ p ≠ geoIPReader st).
Proof.
  intros st st' acts.
  assert (Hs : mmdbSafe st) by apply mmdbDownloader_safe, mmdbStart_safe.
  destruct (mmdbDownloaderTick st tk) as [st1 acts1] eqn:E.
  pose proof E as E'.
  apply mmdbDownloaderTick_safe in E as (_ & H1 & H2 & H3); [|done].
  subst st' acts. cbn. split_and!; [done|done|].
  intros p Hp. split; [by apply H3|].
  unfold mmdbDownloaderTick in E'.
  destruct (fetchLatestMmdb st tk) as [[st2 acts2] res] eqn:Ef.
  apply fetchLatestMmdb_spec in Ef as (_ & _ & _ & _ & Hres).
  destruct Hs as (Hc & Hr & _).
  pose proof (mmdbKnownPath_fresh _ _ Hc Hr) as Hfresh.
  destruct Hres as [(-> & -> & _)|(err & -> & Hacts & _)].
  - destruct (removeOld tk); simplify_eq; set_unfold;
      intros ->; intuition (try congruence).
  - simplify_eq. destruct Hacts as [->| ->]; set_unfold; intuition (try congruence).
Qed.

(** X19.  After a tick in which every step succeeded, a tick whose
    [Last-Modified] header is the same and not in the future downloads
    nothing: it only logs, and reader, path and count stay. *)
Theorem mmdb_same_header_not_downloaded_again
    (st : mmdbState) (lastModified : string) (after : bool) (tk2 : mmdbTick) :
  lastModified ≠ serverETag st ∨ after = true →
  headResponse tk2 = Ok (lastModified, Ok false) →
  let path := mmdbFileName (fileDownloadCount st) in
  ∃ st1,
    mmdbDownloaderTick st (mmdbAllSucceed lastModified after None) =
      (st1, [FsCreate path; FsOpen path; FsRemove (mmdbPath st)]) ∧
    geoIPReader st1 = path ∧ mmdbPath st1 = path ∧
    serverETag st1 = lastModified ∧
    ∃ st2,
      mmdbDownloaderTick st1 tk2 = (st2, [FsLog mmdbNotNewer]) ∧
      geoIPReader st2 = path ∧ mmdbPath st2 = path ∧
      serverETag st2 = lastModified ∧
      fileDownloadCount st2 = fileDownloadCount st + 1.
Proof.
  intros Hnew Hhead path.
  assert (Hcond : negb (bool_decide (lastModified = serverETag st)) || after = true).
  { destruct Hnew as [Hne| ->]; [|by rewrite orb_true_r].
    by rewrite bool_decide_eq_false_2. }
  eexists. split.
  { unfold mmdbDownloaderTick, fetchLatestMmdb, mmdbAllSucceed. cbn.
    rewrite Hcond. cbn. reflexivity. }
  cbn. split_and!; [done..|].
  eexists. split.
  { unfold mmdbDownloaderTick, fetchLatestMmdb. cbn. rewrite Hhead. cbn.
    rewrite bool_decide_eq_true_2 by done. cbn. reflexivity. }
  cbn. done.
Qed.

Lemma mmdb_same_header_not_downloaded_again_witness :
  let st := mmdbStart "abc123" in
  let lm := "Tue, 01 Jan 2019 00:00:00 GMT"%string in
  let tk2 := mkMmdbTick (Ok (lm, Ok false)) None None None None None None in
  let path := mmdbFileName 0 in
  ∃ st1,
    mmdbDownloaderTick st (mmdbAllSucceed lm false None) =
      (st1, [FsCreate path; FsOpen path; FsRemove mmdbInitialPath]) ∧
    geoIPReader st1 = path ∧ mmdbPath st1 = path ∧
    serverETag st1 = lm ∧
    ∃ st2,
      mmdbDownloaderTick st1 tk2 = (st2, [FsLog mmdbNotNewer]) ∧
      geoIPReader st2 = path ∧ mmdbPath st2 = path ∧
      serverETag st2 = lm ∧
      fileDownloadCount st2 = 0 + 1.
Proof.
  intros st lm tk2 path.
  apply (mmdb_same_header_not_downloaded_again st lm false tk2).
  - left. discriminate.
  - reflexivity.
Defined.

(** X20.  When [os.Remove] fails in a tick that downloaded, [mmdbPath] and
    [serverETag] keep their old values although the reader is the new one; the
    next tick with the same header downloads again, into the next file name,
    and calls [os.Remove] on the same old path. *)
Theorem mmdb_remove_failure_repeats_download
    (st : mmdbState) (lastModified : string) (after : bool) (err : error) :
  lastModified ≠ serverETag st →
  let path := mmdbFileName (fileDownloadCount st) in
  let path' := mmdbFileName (fileDownloadCount st + 1) in
  ∃ st1,
    mmdbDownloaderTick st (mmdbAllSucceed lastModified after (Some err)) =
      (st1, [FsCreate path; FsOpen path; FsRemove (mmdbPath st); FsLog err]) ∧
    geoIPReader st1 = path ∧ mmdbPath st1 = mmdbPath st ∧
    serverETag st1 = serverETag st ∧
    ∃ st2,
      mmdbDownloaderTick st1 (mmdbAllSucceed lastModified false None) =
        (st2, [FsCreate path'; FsOpen path'; FsRemove (mmdbPath st)]) ∧
      geoIPReader st2 = path' ∧ mmdbPath st2 = path'.
Proof.
  intros Hne path path'.
  assert (Hcond : ∀ b, negb (bool_decide (lastModified = serverETag st)) || b = true).
  { intros b. by rewrite bool_decide_eq_false_2. }
  eexists. split.
  { unfold mmdbDownloaderTick, fetchLatestMmdb, mmdbAllSucceed. cbn.
    rewrite Hcond. cbn. reflexivity. }
  cbn. split_and!; [done..|].
  eexists. split.
  { unfold mmdbDownloaderTick, fetchLatestMmdb, mmdbAllSucceed. cbn.
    rewrite Hcond. cbn. reflexivity. }
  cbn. done.
Qed.

Lemma mmdb_remove_failure_repeats_download_witness :
  let st := mmdbStart "abc123" in
  let lm := "Tue, 01 Jan 2019 00:00:00 GMT"%string in
  let err := "remove GeoLite2-City.mmdb: permission denied"%string in
  ∃ st1,
    mmdbDownloaderTick st (mmdbAllSucceed lm false (Some err)) =
      (st1, [FsCreate (mmdbFileName 0); FsOpen (mmdbFileName 0);
             FsRemove mmdbInitialPath; FsLog err]) ∧
    geoIPReader st1 = mmdbFileName 0 ∧ mmdbPath st1 = mmdbInitialPath ∧
    serverETag st1 = "abc123"%string ∧
    ∃ st2,
      mmdbDownloaderTick st1 (mmdbAllSucceed lm false None) =
        (st2, [FsCreate (mmdbFileName (0 + 1)); FsOpen (mmdbFileName (0 + 1));
               FsRemove mmdbInitialPath]) ∧
      geoIPReader st2 = mmdbFileName (0 + 1) ∧ mmdbPath st2 = mmdbFileName (0 + 1).
Proof.
  intros st lm err.
  apply (mmdb_remove_failure_repeats_download st lm false err). discriminate.
Defined.

